(** * ericw-tools: the BSP container header [include/common/bspfile.hh]

    A shallow embedding of the value types and inline member functions of
    [bspfile.hh] (content flags, surface flags, format descriptors, the
    document and its extensible lump table), with the properties the
    specification states about them. *)

From Stdlib Require Import ZArith Bool List String Ascii Lia.
From Stdlib Require Import Floats.SpecFloat.
From Stdlib Require Import DecimalString DecimalPos DecimalZ.
From stdpp Require Import base option list gmap strings.

Local Open Scope Z_scope.

(** ** Scalars used by the header *)

Module Scalars.

(** [vec_t] is the repository's floating-point scalar (its typedef lives in
    [common/qvec.hh]).  A value is an IEEE-754 datum: a signed zero, a
    signed infinity, a NaN or a finite number.  Comparisons are the IEEE
    ones, at whatever precision the typedef selects. *)
Definition vec_t : Type := spec_float.

Definition vec_zero : vec_t := S754_zero false.
Definition vec_neg_zero : vec_t := S754_zero true.
Definition vec_nan : vec_t := S754_nan.
(** 1.0 in binary64: mantissa [2^52], exponent [-52]. *)
Definition vec_one : vec_t := S754_finite false 4503599627370496 (-52).

(** [x < y] and [x == y] on [vec_t]. *)
Definition vec_lt (x y : vec_t) : bool := SFltb x y.
Definition vec_eq (x y : vec_t) : bool := SFeqb x y.

(** Contextual conversion of a floating-point value to [bool], as in
    [phong_angle || ...]: both zeros convert to [false], every other
    value (NaN included) to [true]. *)
Definition vec_to_bool (x : vec_t) : bool :=
  match x with
  | S754_zero _ => false
  | _ => true
  end.

Definition is_nan (x : vec_t) : bool :=
  match x with
  | S754_nan => true
  | _ => false
  end.

(** [qvec3b] is [qvec<uint8_t, 3>]: three bytes. *)
Record qvec3b : Type := mk_qvec3b { qv0 : Z; qv1 : Z; qv2 : Z }.

Definition qvec3b_zero : qvec3b := mk_qvec3b 0 0 0.

(** Modelled from the spec: [qv::emptyExact] is defined in
    [common/qvec.hh]; it tells whether every component of the vector is
    exactly zero, which is how [needs_write] tests the minlight colour
    against its default. *)
Definition emptyExact (v : qvec3b) : bool :=
  (qv0 v =? 0) && (qv1 v =? 0) && (qv2 v =? 0).

(** Modelled from the spec: the comparison of two [qvec3b] is defined in
    [common/qvec.hh]; the vector takes part in the field tuple's
    lexicographic order through the order of its own components. *)
Definition qvec3b_lt (u v : qvec3b) : bool :=
  (qv0 u <? qv0 v) ||
  (negb (qv0 v <? qv0 u) &&
   ((qv1 u <? qv1 v) ||
    (negb (qv1 v <? qv1 u) && (qv2 u <? qv2 v)))).

Definition qvec3b_eq (u v : qvec3b) : bool :=
  (qv0 u =? qv0 v) && (qv1 u =? qv1 v) && (qv2 u =? qv2 v).

End Scalars.

(** ** Relational operators, as the tuple comparison uses them *)

Module Rel.
Import Scalars.

(** [operator<] and [operator==] of a field type. *)
Class Less (A : Type) := less : A -> A -> bool.
Class Equal (A : Type) := equal : A -> A -> bool.
(** The values on which the comparison is an order: all of them, except
    for floating-point fields, where NaN is unordered. *)
Class Ordered (A : Type) := ordered : A -> Prop.

#[export] Instance less_int32 : Less Z := Z.ltb.
#[export] Instance equal_int32 : Equal Z := Z.eqb.
#[export] Instance ordered_int32 : Ordered Z := fun _ => True.

(** [false < true]. *)
#[export] Instance less_bool : Less bool := fun x y => negb x && y.
#[export] Instance equal_bool : Equal bool := Bool.eqb.
#[export] Instance ordered_bool : Ordered bool := fun _ => True.

#[export] Instance less_vec : Less vec_t := vec_lt.
#[export] Instance equal_vec : Equal vec_t := vec_eq.
#[export] Instance ordered_vec : Ordered vec_t := fun x => is_nan x = false.

#[export] Instance less_qvec3b : Less qvec3b := qvec3b_lt.
#[export] Instance equal_qvec3b : Equal qvec3b := qvec3b_eq.
#[export] Instance ordered_qvec3b : Ordered qvec3b := fun _ => True.

(** The empty tail of a tuple. *)
#[export] Instance less_unit : Less unit := fun _ _ => false.
#[export] Instance equal_unit : Equal unit := fun _ _ => true.
#[export] Instance ordered_unit : Ordered unit := fun _ => True.

(** [std::tuple]'s [operator<]: with [x] the head and [xs] the tail,
    [x < y || (!(y < x) && xs < ys)]; only [operator<] of the elements
    is used. *)
#[export] Instance less_tuple {A B} `{Less A, Less B} : Less (A * B) :=
  fun x y =>
    less (fst x) (fst y) ||
    (negb (less (fst y) (fst x)) && less (snd x) (snd y)).

#[export] Instance equal_tuple {A B} `{Equal A, Equal B} : Equal (A * B) :=
  fun x y => equal (fst x) (fst y) && equal (snd x) (snd y).

#[export] Instance ordered_tuple {A B} `{Ordered A, Ordered B} : Ordered (A * B) :=
  fun x => ordered (fst x) /\ ordered (snd x).

(** The lexicographic order in the specification's words: the first
    elements decide when they are ordered; when they are equal the rest of
    the tuple decides. *)
Class Lex (A : Type) := lex : A -> A -> Prop.

#[export] Instance lex_unit : Lex unit := fun _ _ => False.
#[export] Instance lex_tuple {A B} `{Less A, Equal A, Lex B} : Lex (A * B) :=
  fun x y =>
    less (fst x) (fst y) = true \/
    (equal (fst x) (fst y) = true /\ lex (snd x) (snd y)).

(** Exactly one of three tests holds. *)
Definition exactly_one (p q r : bool) : Prop :=
  (p = true /\ q = false /\ r = false) \/
  (p = false /\ q = true /\ r = false) \/
  (p = false /\ q = false /\ r = true).

(** A field type whose [<] and [==] form a strict total order on its
    ordered values. *)
Class Trichotomy (A : Type) `{Less A, Equal A, Ordered A} : Prop :=
  trichotomy : forall x y : A,
    ordered x -> ordered y -> exactly_one (less x y) (less y x) (equal x y).

(** On ordered values the tuple's [operator<] is the lexicographic
    order. *)
Class LexAgrees (A : Type) `{Less A, Ordered A, Lex A} : Prop :=
  lex_agrees : forall x y : A,
    ordered x -> ordered y -> (less x y = true <-> lex x y).

End Rel.

(** ** Surface flags *)

Module Surfflags.
Import Scalars Rel.

Record surfflags_t : Type := mk_surfflags {
  (* native flags value; what's written to the BSP basically *)
  native : Z;
  (* an invisible surface *)
  is_skip : bool;
  (* hint surface *)
  is_hint : bool;
  (* don't receive dirtmapping *)
  no_dirt : bool;
  (* don't cast a shadow *)
  no_shadow : bool;
  (* light doesn't bounce off this face *)
  no_bounce : bool;
  (* opt out of minlight on this face *)
  no_minlight : bool;
  (* don't expand this face for larger clip hulls *)
  no_expand : bool;
  (* this face doesn't receive light *)
  light_ignore : bool;
  (* if non zero, enables phong shading and gives the angle threshold *)
  phong_angle : vec_t;
  (* if non zero, overrides _phong_angle for concave joints *)
  phong_angle_concave : vec_t;
  (* minlight value for this face *)
  minlight : vec_t;
  (* red minlight colors for this face *)
  minlight_color : qvec3b;
  (* custom opacity *)
  light_alpha : vec_t
}.

(** The struct has no member initialisers: a default ([surfflags_t{}])
    value has every field zero. *)
Definition surfflags_default : surfflags_t :=
  mk_surfflags 0 false false false false false false false false
    vec_zero vec_zero vec_zero qvec3b_zero vec_zero.

Definition needs_write (s : surfflags_t) : bool :=
  no_dirt s || no_shadow s || no_bounce s || no_minlight s || no_expand s ||
  light_ignore s || vec_to_bool (phong_angle s) ||
  vec_to_bool (phong_angle_concave s) || vec_to_bool (minlight s) ||
  negb (emptyExact (minlight_color s)) || vec_to_bool (light_alpha s).

(** [std::tie] of the fourteen fields, as a right-nested tuple. *)
Definition as_tuple (s : surfflags_t) :=
  (native s, (is_skip s, (is_hint s, (no_dirt s, (no_shadow s, (no_bounce s,
  (no_minlight s, (no_expand s, (light_ignore s, (phong_angle s,
  (phong_angle_concave s, (minlight s, (minlight_color s,
  (light_alpha s, tt)))))))))))))).

(* sort support *)
Definition operator_lt (s other : surfflags_t) : bool :=
  less (as_tuple s) (as_tuple other).

(** [x > y] on tuples is [y < x]. *)
Definition operator_gt (s other : surfflags_t) : bool :=
  less (as_tuple other) (as_tuple s).

(** Field-wise [==] over the whole tuple. *)
Definition all_fields_equal (a b : surfflags_t) : bool :=
  equal (as_tuple a) (as_tuple b).

(** No floating-point field is NaN. *)
Definition nan_free (s : surfflags_t) : Prop := ordered (as_tuple s).

(** The tuple order in the specification's words. *)
Definition lex_lt (a b : surfflags_t) : Prop := lex (as_tuple a) (as_tuple b).

(** Some field differs from its default, over all fourteen fields. *)
Definition some_field_differs (s : surfflags_t) : Prop :=
  native s <> native surfflags_default \/
  is_skip s <> is_skip surfflags_default \/
  is_hint s <> is_hint surfflags_default \/
  no_dirt s <> no_dirt surfflags_default \/
  no_shadow s <> no_shadow surfflags_default \/
  no_bounce s <> no_bounce surfflags_default \/
  no_minlight s <> no_minlight surfflags_default \/
  no_expand s <> no_expand surfflags_default \/
  light_ignore s <> light_ignore surfflags_default \/
  vec_eq (phong_angle s) (phong_angle surfflags_default) = false \/
  vec_eq (phong_angle_concave s) (phong_angle_concave surfflags_default) = false \/
  vec_eq (minlight s) (minlight surfflags_default) = false \/
  minlight_color s <> minlight_color surfflags_default \/
  vec_eq (light_alpha s) (light_alpha surfflags_default) = false.

(** Some field of the extended (lighting) part differs from its default:
    the eleven fields after [native], [is_skip] and [is_hint]. *)
Definition some_extended_field_differs (s : surfflags_t) : Prop :=
  no_dirt s <> no_dirt surfflags_default \/
  no_shadow s <> no_shadow surfflags_default \/
  no_bounce s <> no_bounce surfflags_default \/
  no_minlight s <> no_minlight surfflags_default \/
  no_expand s <> no_expand surfflags_default \/
  light_ignore s <> light_ignore surfflags_default \/
  vec_eq (phong_angle s) (phong_angle surfflags_default) = false \/
  vec_eq (phong_angle_concave s) (phong_angle_concave surfflags_default) = false \/
  vec_eq (minlight s) (minlight surfflags_default) = false \/
  minlight_color s <> minlight_color surfflags_default \/
  vec_eq (light_alpha s) (light_alpha surfflags_default) = false.

(** Field updates of a value. *)
Definition with_native (v : Z) (s : surfflags_t) : surfflags_t :=
  mk_surfflags v (is_skip s) (is_hint s) (no_dirt s) (no_shadow s)
    (no_bounce s) (no_minlight s) (no_expand s) (light_ignore s)
    (phong_angle s) (phong_angle_concave s) (minlight s) (minlight_color s)
    (light_alpha s).

Definition with_is_skip (v : bool) (s : surfflags_t) : surfflags_t :=
  mk_surfflags (native s) v (is_hint s) (no_dirt s) (no_shadow s)
    (no_bounce s) (no_minlight s) (no_expand s) (light_ignore s)
    (phong_angle s) (phong_angle_concave s) (minlight s) (minlight_color s)
    (light_alpha s).

Definition with_is_hint (v : bool) (s : surfflags_t) : surfflags_t :=
  mk_surfflags (native s) (is_skip s) v (no_dirt s) (no_shadow s)
    (no_bounce s) (no_minlight s) (no_expand s) (light_ignore s)
    (phong_angle s) (phong_angle_concave s) (minlight s) (minlight_color s)
    (light_alpha s).

Definition with_phong_angle (v : vec_t) (s : surfflags_t) : surfflags_t :=
  mk_surfflags (native s) (is_skip s) (is_hint s) (no_dirt s) (no_shadow s)
    (no_bounce s) (no_minlight s) (no_expand s) (light_ignore s)
    v (phong_angle_concave s) (minlight s) (minlight_color s)
    (light_alpha s).

(** A value whose phong angle is NaN, and one with ordinary fields. *)
Definition nan_angle : surfflags_t := with_phong_angle vec_nan surfflags_default.

Definition sample_phong : surfflags_t :=
  with_phong_angle vec_one (with_native 3 surfflags_default).

End Surfflags.

(** ** Content flags and the game contract *)

Module Contentflags.

Section WithGameData.
(** [std::any]: the opaque payload a game attaches to a contents value. *)
Context {any : Type}.

Record contentflags_t : Type := mk_contentflags {
  (* native flags value; what's written to the BSP basically *)
  native : Z;
  (* extra data supplied by the game *)
  game_data : any;
  (* the value set directly from `_mirrorinside` on the brush, if available *)
  mirror_inside : option bool;
  (* don't clip the same content type *)
  clips_same_type : option bool;
  (* always blocks vis, even if it normally wouldn't *)
  illusionary_visblocker : bool
}.

(* native game target ID *)
Inductive gameid_t : Type :=
  | GAME_UNKNOWN
  | GAME_QUAKE
  | GAME_HEXEN_II
  | GAME_HALF_LIFE
  | GAME_QUAKE_II
  | GAME_TOTAL.

(** [gamedef_t]: the data members and the pure virtual capabilities over
    contents and surface flags.  (The capabilities over hull sizes, the
    palette, the file system and the statistics take types of other
    headers and play no part here.) *)
Record gamedef_t : Type := mk_gamedef {
  id : gameid_t;
  has_rgb_lightmap : bool;
  allow_contented_bmodels : bool;
  default_base_dir : string;
  max_entity_key : N;
  max_entity_value : N;
  surf_is_lightmapped : Surfflags.surfflags_t -> bool;
  surf_is_subdivided : Surfflags.surfflags_t -> bool;
  surfflags_are_valid : Surfflags.surfflags_t -> bool;
  texinfo_is_hintskip : Surfflags.surfflags_t -> string -> bool;
  cluster_contents : contentflags_t -> contentflags_t -> contentflags_t;
  contents_priority : contentflags_t -> Z;
  chops : contentflags_t -> bool;
  create_empty_contents : contentflags_t;
  create_solid_contents : contentflags_t;
  create_detail_illusionary_contents : contentflags_t -> contentflags_t;
  create_detail_fence_contents : contentflags_t -> contentflags_t;
  create_detail_solid_contents : contentflags_t -> contentflags_t;
  contents_are_type_equal : contentflags_t -> contentflags_t -> bool;
  contents_are_equal : contentflags_t -> contentflags_t -> bool;
  contents_are_any_detail : contentflags_t -> bool;
  contents_are_detail_solid : contentflags_t -> bool;
  contents_are_detail_fence : contentflags_t -> bool;
  contents_are_detail_illusionary : contentflags_t -> bool;
  contents_are_mirrored : contentflags_t -> bool;
  contents_are_origin : contentflags_t -> bool;
  contents_are_clip : contentflags_t -> bool;
  contents_are_empty : contentflags_t -> bool;
  contents_clip_same_type : contentflags_t -> contentflags_t -> bool;
  contents_are_solid : contentflags_t -> bool;
  contents_are_sky : contentflags_t -> bool;
  contents_are_liquid : contentflags_t -> bool;
  contents_are_valid : contentflags_t -> bool -> bool;
  portal_can_see_through : contentflags_t -> contentflags_t -> bool -> bool -> bool;
  contents_seals_map : contentflags_t -> bool;
  contents_remap_for_export : contentflags_t -> contentflags_t;
  combine_contents : contentflags_t -> contentflags_t -> contentflags_t;
  get_contents_display : contentflags_t -> string
}.

(** The member functions of [contentflags_t] that the header declares and
    [bspfile.cc] defines; the inline members below call them. *)
Class OutOfLine : Type := {
  is_detail_solid : contentflags_t -> gamedef_t -> bool;
  is_detail_fence : contentflags_t -> gamedef_t -> bool;
  is_detail_illusionary : contentflags_t -> gamedef_t -> bool;
  is_solid : contentflags_t -> gamedef_t -> bool;
  (* bool will_clip_same_type(const gamedef_t *game, const contentflags_t &other) const *)
  will_clip_same_type_other : contentflags_t -> gamedef_t -> contentflags_t -> bool
}.

(** Modelled from the spec: the bodies of the declared member functions
    are in [bspfile.cc]; every semantic question is answered by
    delegating to the supplied game contract, the same-type clipping
    one through [contents_clip_same_type]. *)
Definition delegating : OutOfLine := {|
  is_detail_solid := fun c game => contents_are_detail_solid game c;
  is_detail_fence := fun c game => contents_are_detail_fence game c;
  is_detail_illusionary := fun c game => contents_are_detail_illusionary game c;
  is_solid := fun c game => contents_are_solid game c;
  will_clip_same_type_other := fun c game other => contents_clip_same_type game c other
|}.

Section Inline.
Context {impl : OutOfLine}.

(* inline bool will_clip_same_type(const gamedef_t *game) const *)
Definition will_clip_same_type (c : contentflags_t) (game : gamedef_t) : bool :=
  will_clip_same_type_other c game c.

(* detail solid or structural solid *)
Definition is_any_solid (c : contentflags_t) (game : gamedef_t) : bool :=
  is_solid c game || is_detail_solid c game.

Definition is_fence (c : contentflags_t) (game : gamedef_t) : bool :=
  is_detail_fence c game || is_detail_illusionary c game.

End Inline.

(** The assignments made by the two setters. *)
Definition assign_mirror_inside (v : option bool) (c : contentflags_t) : contentflags_t :=
  mk_contentflags (native c) (game_data c) v (clips_same_type c)
    (illusionary_visblocker c).

Definition assign_clips_same_type (v : option bool) (c : contentflags_t) : contentflags_t :=
  mk_contentflags (native c) (game_data c) (mirror_inside c) v
    (illusionary_visblocker c).

(** Objects live in a store; a reference is the location of its object.
    A setter is called on the object at [this], mutates it in place and
    returns [*this].  Calling it on a location that holds no object has no
    defined result. *)
Definition loc : Type := positive.
Definition store : Type := gmap loc contentflags_t.

Definition set_mirrored (this : loc) (mirror_inside_value : option bool)
    (h : gmap loc contentflags_t) : option (loc * gmap loc contentflags_t) :=
  match h !! this with
  | Some c => Some (this, <[this := assign_mirror_inside mirror_inside_value c]> h)
  | None => None
  end.

Definition set_clips_same_type (this : loc) (clips_same_type_value : option bool)
    (h : gmap loc contentflags_t) : option (loc * gmap loc contentflags_t) :=
  match h !! this with
  | Some c => Some (this, <[this := assign_clips_same_type clips_same_type_value c]> h)
  | None => None
  end.

(** [c.set_mirrored(a).set_clips_same_type(b)]: the second call is made
    on the reference the first one returned. *)
Definition set_mirrored_then_clips (this : loc) (a b : option bool)
    (h : gmap loc contentflags_t) : option (loc * gmap loc contentflags_t) :=
  match set_mirrored this a h with
  | Some (r, h') => set_clips_same_type r b h'
  | None => None
  end.

(** What a setter leaves behind: the reference returned is the one it
    was called on, the object there has the override [v] in the field
    [get] and its other fields as before, and no other object changed. *)
Definition setter_effect
    (call : loc -> option bool -> gmap loc contentflags_t ->
            option (loc * gmap loc contentflags_t))
    (get other_override : contentflags_t -> option bool)
    (this : loc) (v : option bool)
    (h : gmap loc contentflags_t) (c : contentflags_t) : Prop :=
  exists (h' : gmap loc contentflags_t) (c' : contentflags_t),
    call this v h = Some (this, h') /\
    h' !! this = Some c' /\
    get c' = v /\
    other_override c' = other_override c /\
    native c' = native c /\
    game_data c' = game_data c /\
    illusionary_visblocker c' = illusionary_visblocker c /\
    (forall l : loc, l <> this -> h' !! l = h !! l).

End WithGameData.

Arguments contentflags_t : clear implicits.
Arguments gamedef_t : clear implicits.
Arguments OutOfLine : clear implicits.

(** A contents value without game payload, in a one-object store. *)
Definition plain_contents : contentflags_t unit :=
  mk_contentflags 1 tt None None false.

Definition one_object : gmap loc (contentflags_t unit) := {[ 1%positive := plain_contents ]}.

End Contentflags.

(** ** Format descriptors and their display form *)

Module Bspversion.

(** A pointer to a long-lived object of another header, kept as its
    address; [nullptr] is address zero. *)
Definition ptr : Type := N.
Definition nullptr : ptr := 0%N.

(* Lump specification; stores the name and size of an individual entry
   in the lump. Count is calculated as (lump_size / size) *)
Record lumpspec_t : Type := mk_lumpspec {
  lump_name : string;
  lump_size : N
}.

(* BSP version struct & instances *)
#[local] Set Warnings "-register-all".
(** A [const char *] member is an optional string ([None] for a null
    pointer); [extended_limits] holds the descriptor it points to. *)
Inductive bspversion_t : Type := mk_bspversion {
  (* identifier value, the first int32_t in the header *)
  ident : Z;
  (* version value, if supported *)
  version : option Z;
  (* short name used for command line args, etc *)
  short_name : option string;
  (* full display name for printing *)
  name : option string;
  (* lump specification *)
  lumps : list lumpspec_t;
  (* game ptr *)
  game : ptr;
  (* if we surpass the limits of this format, upgrade to this one *)
  extended_limits : option bspversion_t
}.

(** [(char) (x & 0xFF)]. *)
Definition low_char (x : Z) : ascii := ascii_of_N (Z.to_N (Z.land x 255)).

(** The five-character array built from the identifier. *)
Definition ident_chars (i : Z) : list ascii :=
  [low_char i; low_char (Z.shiftr i 8); low_char (Z.shiftr i 16);
   low_char (Z.shiftr i 24); zero].

(** A character array printed with [{}] is read as a C string: up to
    the first NUL. *)
Fixpoint c_str (l : list ascii) : string :=
  match l with
  | [] => EmptyString
  | c :: r => if Ascii.eqb c zero then EmptyString else String c (c_str r)
  end.

(** An [int32_t] printed with [{}]: decimal, with a sign when negative. *)
Definition decimal (z : Z) : string := NilZero.string_of_int (Z.to_int z).

(** What [format] has written when it returns; [None] when the formatter
    is handed a null string pointer, which it rejects. *)
Definition format (v : bspversion_t) : option string :=
  let out :=
    match name v with
    | Some n => String.append n " "
    | None => EmptyString
    end in
  (* Q2-esque BSPs are printed as, ex, IBSP:38 *)
  match version v with
  | Some ver =>
      Some (String.append out
              (String.append (c_str (ident_chars (ident v)))
                 (String.append ":" (decimal ver))))
  | None =>
      (* Q1-esque BSPs are printed as, ex, bsp29 *)
      match short_name v with
      | Some s => Some (String.append out s)
      | None => None
      end
  end.

(** The display name and the space after it, when there is a name. *)
Definition display_prefix (v : bspversion_t) : string :=
  match name v with
  | Some n => String.append n " "
  | None => EmptyString
  end.

(** The bytes of the identifier, low byte first. *)
Definition ident_bytes (i : Z) : list Z :=
  [Z.land i 255; Z.land (Z.shiftr i 8) 255; Z.land (Z.shiftr i 16) 255;
   Z.land (Z.shiftr i 24) 255].

(** The letters of the identifier that are displayed: its bytes, low byte
    first, up to the first zero byte. *)
Fixpoint letters_of (bytes : list Z) : string :=
  match bytes with
  | [] => EmptyString
  | b :: r => if b =? 0 then EmptyString
              else String (ascii_of_N (Z.to_N b)) (letters_of r)
  end.

Definition identifier_letters (i : Z) : string := letters_of (ident_bytes i).

(** Four identifier letters, one per byte of the identifier, low byte
    first. *)
Definition four_letters (i : Z) : string :=
  String (low_char i) (String (low_char (Z.shiftr i 8))
    (String (low_char (Z.shiftr i 16))
      (String (low_char (Z.shiftr i 24)) EmptyString))).

(** ['I' | 'B' << 8 | 'S' << 16 | 'P' << 24] *)
Definition IBSP : Z := 0x50534249.

Definition sample_q2 : bspversion_t :=
  mk_bspversion IBSP (Some 38) (Some "q2bsp"%string)
    (Some "Quake II BSP"%string) [] nullptr None.

Definition sample_q2_unnamed : bspversion_t :=
  mk_bspversion IBSP (Some 38) (Some "q2bsp"%string) None [] nullptr None.

Definition sample_q1 : bspversion_t :=
  mk_bspversion 29 None (Some "bsp29"%string)
    (Some "Quake BSP"%string) [] nullptr None.

End Bspversion.

(** ** The document and its extensible lump table *)

Module Bspdata.
Import Bspversion.

(** An entry of the table, built as [bspxentry_t{xdata, xsize}]: the
    buffer it now owns, by its address, and the buffer's size. *)
Record bspxentry_t : Type := mk_bspxentry {
  lumpdata : ptr;
  lumpsize : N
}.

(** Memory: the byte at each address of a live block, and the first
    addresses of the live blocks (an empty block has a first address and
    no byte). *)
Record memory : Type := mk_memory {
  cells : gmap N Byte.byte;
  bases : gset N
}.

(** The anonymous struct [bspx]. *)
Record bspx_t : Type := mk_bspx {
  entries : gmap string bspxentry_t
}.

Definition bspx_empty : bspx_t := mk_bspx ∅.

(* convenience function to transfer a generic pointer into the entries list *)
(** [xdata] is a reference to the caller's pointer: the call returns the
    table after [insert_or_assign] and the pointer's new value. *)
Definition transfer (xname : string) (xdata : ptr) (xsize : N) (b : bspx_t)
    : bspx_t * ptr :=
  (mk_bspx (<[xname := mk_bspxentry xdata xsize]> (entries b)), nullptr).

(** A table that holds two entries, one of them under [LMSHIFT]. *)
Definition sample_bspx : bspx_t :=
  mk_bspx (<["RGBLIGHTING"%string := mk_bspxentry 8192%N 3%N]>
             (<["LMSHIFT"%string := mk_bspxentry 12288%N 2%N]> ∅)).

(** [new uint8_t[n]] returns the first address of a block that shares
    no address with a live block and is the first address of no live
    block, an empty one included; it is not null.  The block taken here
    starts past every live address. *)
Definition fresh_address (m : memory) : N :=
  N.succ (foldr N.max 0%N (elements (dom (cells m) ∪ bases m))).

(** Reading [n] bytes from the address [p] upwards, as [memcpy] does
    from its source; there is no defined result when one of the
    addresses is not that of a live byte.  Reading no byte reads nothing,
    whatever [p] is. *)
Fixpoint read_bytes (c : gmap N Byte.byte) (p : N) (n : nat)
    : option (list Byte.byte) :=
  match n with
  | O => Some []
  | S n' =>
      match c !! p with
      | Some v =>
          match read_bytes c (N.succ p) n' with
          | Some r => Some (v :: r)
          | None => None
          end
      | None => None
      end
  end.

(** Writing bytes from the address [p] upwards. *)
Fixpoint write_bytes (p : N) (data : list Byte.byte) (c : gmap N Byte.byte)
    : gmap N Byte.byte :=
  match data with
  | [] => c
  | v :: r => <[p := v]> (write_bytes (N.succ p) r c)
  end.

(* copies the data over to the BSP *)
(** [new uint8_t[xsize]], then [memcpy(copy, xdata, xsize)], then
    [transfer(xname, copy, xsize)]. *)
Definition copy (xname : string) (xdata : ptr) (xsize : N)
    (st : memory * bspx_t) : option (memory * bspx_t) :=
  let copy := fresh_address (fst st) in
  match read_bytes (cells (fst st)) xdata (N.to_nat xsize) with
  | Some data =>
      let m' := mk_memory (write_bytes copy data (cells (fst st)))
                  ({[ copy ]} ∪ bases (fst st)) in
      Some (m', fst (transfer xname copy xsize (snd st)))
  | None => None
  end.

(** The per-format structural shapes, declared in [bspfile_generic.hh],
    [bspfile_q1.hh] and [bspfile_q2.hh]. *)
Class Shapes : Type := {
  mbsp_t : Type;
  bsp29_t : Type;
  bsp2rmq_t : Type;
  bsp2_t : Type;
  q2bsp_t : Type;
  q2bsp_qbism_t : Type
}.

Section Document.
Context {shapes : Shapes}.

(** [std::variant<std::monostate, mbsp_t, bsp29_t, bsp2rmq_t, bsp2_t,
    q2bsp_t, q2bsp_qbism_t>] *)
Inductive bsp_variant : Type :=
  | monostate
  | holds_mbsp (b : mbsp_t)
  | holds_bsp29 (b : bsp29_t)
  | holds_bsp2rmq (b : bsp2rmq_t)
  | holds_bsp2 (b : bsp2_t)
  | holds_q2bsp (b : q2bsp_t)
  | holds_q2bsp_qbism (b : q2bsp_qbism_t).

(** [std::variant::index]. *)
Definition index (v : bsp_variant) : nat :=
  match v with
  | monostate => 0
  | holds_mbsp _ => 1
  | holds_bsp29 _ => 2
  | holds_bsp2rmq _ => 3
  | holds_bsp2 _ => 4
  | holds_q2bsp _ => 5
  | holds_q2bsp_qbism _ => 6
  end.

(** [std::holds_alternative<std::monostate>]. *)
Definition holds_monostate (v : bsp_variant) : bool :=
  match v with
  | monostate => true
  | _ => false
  end.

Record bspdata_t : Type := mk_bspdata {
  version : option bspversion_t;
  loadversion : option bspversion_t;
  (* Stay in monostate until a BSP type is requested. *)
  bsp : bsp_variant;
  (* This can be used with any BSP format. *)
  bspx : bspx_t
}.

(** A freshly constructed document.  The two descriptor pointers have no
    initialiser, so their values are whatever the construction leaves in
    them; the variant and the table are default-constructed. *)
Definition fresh_bspdata (version0 loadversion0 : option bspversion_t) : bspdata_t :=
  mk_bspdata version0 loadversion0 monostate bspx_empty.

End Document.

End Bspdata.

(** ** The container: writing, loading and converting a document

    [LoadBSPFile], [WriteBSPFile] and [ConvertBSPFormat] are declared in
    [bspfile.hh] and defined in [bspfile.cc]; this module models them from
    the specification's description of the container layout. *)

Module Container.
Import Bspdata Bspversion.

Local Open Scope nat_scope.

(** The failures of the specification's error taxonomy. *)
Inductive error : Type :=
  | FormatUnrecognized
  | FormatAmbiguous
  | TruncatedFile
  | LumpSizeMismatch
  | VariantFormatMismatch
  | NumericOverflow.

(** An operation returns a value or stops with a failure. *)
Inductive result (A : Type) : Type :=
  | Ok (a : A)
  | Fail (e : error).
Arguments Ok {A} a.
Arguments Fail {A} e.

#[export] Instance result_ret : MRet result := fun A a => Ok a.
#[export] Instance result_bind : MBind result := fun A B f m =>
  match m with
  | Ok a => f a
  | Fail e => Fail e
  end.

(** *** Bytes and 32-bit fields *)

Definition byte_of_Z (z : Z) : Byte.byte :=
  match Byte.of_N (Z.to_N (z mod 256)) with
  | Some b => b
  | None => Byte.x00
  end.

Definition Z_of_byte (b : Byte.byte) : Z := Z.of_N (Byte.to_N b).

(** A 32-bit field, low byte first. *)
Definition le32 (z : Z) : list Byte.byte :=
  [byte_of_Z z; byte_of_Z (z / 256); byte_of_Z (z / 65536);
   byte_of_Z (z / 16777216)].

Definition signed32 (u : Z) : Z :=
  if (u <? 2147483648)%Z then u else (u - 4294967296)%Z.

Definition slice (off len : nat) (file : list Byte.byte) : list Byte.byte :=
  take len (drop off file).

Definition read32 (file : list Byte.byte) (pos : nat) : result Z :=
  match slice pos 4 file with
  | [b0; b1; b2; b3] =>
      Ok (signed32 (Z_of_byte b0 + 256 * Z_of_byte b1 + 65536 * Z_of_byte b2 +
                    16777216 * Z_of_byte b3)%Z)
  | _ => Fail TruncatedFile
  end.

(** An offset, a length or a count: a 32-bit field that must not be
    negative. *)
Definition read_size (file : list Byte.byte) (pos : nat) : result nat :=
  z ← read32 file pos;
  if (z <? 0)%Z then Fail TruncatedFile else Ok (Z.to_nat z).

(** A byte range of the file; it must lie within the file. *)
Definition read_blob (file : list Byte.byte) (loc : nat * nat)
    : result (list Byte.byte) :=
  if fst loc + snd loc <=? length file
  then Ok (slice (fst loc) (snd loc) file)
  else Fail TruncatedFile.

(** *** Documents *)

(** A lump is a homogeneous array of fixed-size records; a structural
    shape is the list of its lumps, in the order of the format's lump
    descriptors.  The record layouts themselves belong to the per-format
    headers; a record is kept as its bytes. *)
Definition lump_records : Type := list (list Byte.byte).
Definition lumps_t : Type := list (list (list Byte.byte)).

#[export] Instance raw_shapes : Shapes := {|
  mbsp_t := lumps_t;
  bsp29_t := lumps_t;
  bsp2rmq_t := lumps_t;
  bsp2_t := lumps_t;
  q2bsp_t := lumps_t;
  q2bsp_qbism_t := lumps_t
|}.

(** The six populated alternatives of the tagged union. *)
Inductive family_t : Type :=
  | fam_mbsp
  | fam_bsp29
  | fam_bsp2rmq
  | fam_bsp2
  | fam_q2bsp
  | fam_q2bsp_qbism.

Definition family_eqb (a b : family_t) : bool :=
  match a, b with
  | fam_mbsp, fam_mbsp | fam_bsp29, fam_bsp29 | fam_bsp2rmq, fam_bsp2rmq
  | fam_bsp2, fam_bsp2 | fam_q2bsp, fam_q2bsp
  | fam_q2bsp_qbism, fam_q2bsp_qbism => true
  | _, _ => false
  end.

Definition populate (fam : family_t) (l : lumps_t) : bsp_variant :=
  match fam with
  | fam_mbsp => holds_mbsp l
  | fam_bsp29 => holds_bsp29 l
  | fam_bsp2rmq => holds_bsp2rmq l
  | fam_bsp2 => holds_bsp2 l
  | fam_q2bsp => holds_q2bsp l
  | fam_q2bsp_qbism => holds_q2bsp_qbism l
  end.

Definition populated (v : bsp_variant) : option (family_t * lumps_t) :=
  match v with
  | monostate => None
  | holds_mbsp l => Some (fam_mbsp, l)
  | holds_bsp29 l => Some (fam_bsp29, l)
  | holds_bsp2rmq l => Some (fam_bsp2rmq, l)
  | holds_bsp2 l => Some (fam_bsp2, l)
  | holds_q2bsp l => Some (fam_q2bsp, l)
  | holds_q2bsp_qbism l => Some (fam_q2bsp_qbism, l)
  end.

(** Modelled from the spec: the document of the data model,
    [{matchedFormat, loadFormat, structuralVariant, extensionLumpTable}];
    the extensible lump table maps each extension name to its raw bytes. *)
Record document : Type := mk_document {
  matchedFormat : option bspversion_t;
  loadFormat : option bspversion_t;
  structuralVariant : bsp_variant;
  extensionLumpTable : gmap string (list Byte.byte)
}.

(** Two descriptors with the same (identifier, version) pair. *)
Definition same_format (F G : bspversion_t) : bool :=
  (ident F =? ident G)%Z &&
  match version F, version G with
  | Some v, Some w => (v =? w)%Z
  | None, None => true
  | _, _ => false
  end.

(** Two descriptors that no header can match at once: their identifiers
    differ, or both have a version and the versions differ. *)
Definition distinct_headers (F G : bspversion_t) : bool :=
  negb (ident F =? ident G)%Z ||
  match version F, version G with
  | Some v, Some w => negb (v =? w)%Z
  | _, _ => false
  end.

(** The registry invariant: no two descriptors can match one header. *)
Fixpoint registry_unambiguous (reg : list bspversion_t) : bool :=
  match reg with
  | [] => true
  | F :: r => forallb (distinct_headers F) r && registry_unambiguous r
  end.

Definition int32 (z : Z) : Prop := (-2147483648 <= z < 2147483648)%Z.

(** A descriptor's identifier and version are 32-bit values, and its
    lumps have records of at least one byte. *)
Definition descriptor_ok (F : bspversion_t) : Prop :=
  int32 (ident F) /\
  (forall v, version F = Some v -> int32 v) /\
  Forall (fun s => (0 < lump_size s)%N) (lumps F).

(** The lumps of a shape are those of the descriptor: one lump per lump
    descriptor, each record of the descriptor's record size. *)
Definition lumps_match (F : bspversion_t) (l : lumps_t) : Prop :=
  Forall2 (fun s recs => Forall (fun r => length r = N.to_nat (lump_size s)) recs)
    (lumps F) l.

Section Engine.

(** The alignment constant of the padding rule, the width of the name
    field of an extension entry, the shape family of each format, the
    table of supported versions ([bspversions] in the header, whose
    entries the per-format headers define). *)
Variable align : nat.
Variable name_width : nat.
Variable family : bspversion_t -> family_t.
Variable bspversions : list bspversion_t.

(** A document whose structural variant matches the format [F]. *)
Definition matches_format (F : bspversion_t) (doc : document) : Prop :=
  matchedFormat doc = Some F /\
  exists l : lumps_t,
    structuralVariant doc = populate (family F) l /\ lumps_match F l.

(** Extension names are short: they fit the name field with its
    terminator, and hold no NUL. *)
Definition short_name_ok (name : string) : Prop :=
  length (list_byte_of_string name) < name_width /\
  Byte.x00 ∉ list_byte_of_string name.

(** *** Layout *)

Definition padding (pos : nat) : nat := (align - pos mod align) mod align.
Definition align_up (pos : nat) : nat := pos + padding pos.

(** Places the blobs one after the other from [pos], each padded to the
    alignment: their locations, the bytes, and the position reached. *)
Fixpoint place (pos : nat) (blobs : list (list Byte.byte))
    : list (nat * nat) * list Byte.byte * nat :=
  match blobs with
  | [] => ([], [], pos)
  | b :: rest =>
      let next := align_up (pos + length b) in
      let '(locs, data, e) := place next rest in
      ((pos, length b) :: locs,
       b ++ replicate (padding (pos + length b)) Byte.x00 ++ data, e)
  end.

Definition encode_loc (loc : nat * nat) : list Byte.byte :=
  le32 (Z.of_nat (fst loc)) ++ le32 (Z.of_nat (snd loc)).

Definition header (F : bspversion_t) : list Byte.byte :=
  le32 (ident F) ++
  match version F with
  | Some v => le32 v
  | None => []
  end.

Definition header_len (F : bspversion_t) : nat :=
  match version F with
  | Some _ => 8
  | None => 4
  end.

(** The name field: the name, NUL-padded to the field's width. *)
Definition name_field (name : string) : list Byte.byte :=
  take name_width (list_byte_of_string name ++ replicate name_width Byte.x00).

Definition encode_entry (name : string) (loc : nat * nat) : list Byte.byte :=
  name_field name ++ encode_loc loc.

(** The extensible lump table section at [pos]: the count, the
    [(name, offset, length)] triples, the blobs.  Nothing is written for
    an empty table. *)
Definition bspx_section (pos : nat) (ents : list (string * list Byte.byte))
    : list Byte.byte :=
  match ents with
  | [] => []
  | _ =>
      let base := pos + 4 + length ents * (name_width + 8) in
      let '(locs, data, _) := place base (map snd ents) in
      le32 (Z.of_nat (length ents)) ++
      concat (zip_with encode_entry (map fst ents) locs) ++ data
  end.

(** Modelled from the spec: [WriteBSPFile] (defined in [bspfile.cc])
    serializes the lumps in the format's declared order, computes the
    offsets sequentially with the padding rule, and appends the
    extensible lump table section when the table is not empty; it fails
    with [VariantFormatMismatch] when the structural variant is not of
    the stored format's family.  The result is the bytes of the file. *)
Definition WriteBSPFile (doc : document) : result (list Byte.byte) :=
  match matchedFormat doc, populated (structuralVariant doc) with
  | Some F, Some (fam, l) =>
      if family_eqb fam (family F) && (length l =? length (lumps F)) then
        let blobs := map (fun recs => concat recs) l in
        let base := header_len F + 8 * length blobs in
        let '(locs, data, e) := place base blobs in
        Ok (header F ++ concat (map encode_loc locs) ++ data ++
            bspx_section e (map_to_list (extensionLumpTable doc)))
      else Fail VariantFormatMismatch
  | _, _ => Fail VariantFormatMismatch
  end.

(** The size of the file written for a document. *)
Definition written_size (doc : document) : nat :=
  match WriteBSPFile doc with
  | Ok bytes => length bytes
  | Fail _ => 0
  end.

(** *** Loading *)

(** A descriptor matches the header when the identifier is its own and,
    if it has a version, the version integer that follows is its own. *)
Definition header_matches (file : list Byte.byte) (id : Z) (F : bspversion_t) : bool :=
  (ident F =? id)%Z &&
  match version F with
  | None => true
  | Some v =>
      match read32 file 4 with
      | Ok w => (w =? v)%Z
      | Fail _ => false
      end
  end.

(** Format detection: the unique descriptor of the registry that matches
    the header. *)
Definition detect (file : list Byte.byte) : result bspversion_t :=
  id ← read32 file 0;
  match List.filter (header_matches file id) bspversions with
  | [] => Fail FormatUnrecognized
  | [F] => Ok F
  | _ => Fail FormatAmbiguous
  end.

(** The lump-offset table: [n] locations from [pos]. *)
Fixpoint read_locs (file : list Byte.byte) (pos n : nat) : result (list (nat * nat)) :=
  match n with
  | O => Ok []
  | S n' =>
      off ← read_size file pos;
      len ← read_size file (pos + 4);
      rest ← read_locs file (pos + 8) n';
      Ok ((off, len) :: rest)
  end.

(** Cuts bytes into records of [size] bytes. *)
Fixpoint chunks_fuel (fuel size : nat) (l : list Byte.byte) : list (list Byte.byte) :=
  match fuel with
  | O => []
  | S fuel' =>
      match l with
      | [] => []
      | _ => take size l :: chunks_fuel fuel' size (drop size l)
      end
  end.

Definition chunks (size : nat) (l : list Byte.byte) : list (list Byte.byte) :=
  chunks_fuel (length l) size l.

(** One lump: its range must lie within the file and its length must be
    a multiple of the record size. *)
Definition parse_lump (file : list Byte.byte) (s : lumpspec_t) (loc : nat * nat)
    : result (list (list Byte.byte)) :=
  data ← read_blob file loc;
  if (snd loc mod N.to_nat (lump_size s)) =? 0
  then Ok (chunks (N.to_nat (lump_size s)) data)
  else Fail LumpSizeMismatch.

Fixpoint parse_lumps (file : list Byte.byte) (specs : list lumpspec_t)
    (locs : list (nat * nat)) : result lumps_t :=
  match specs, locs with
  | s :: specs', loc :: locs' =>
      recs ← parse_lump file s loc;
      rest ← parse_lumps file specs' locs';
      Ok (recs :: rest)
  | _, _ => Ok []
  end.

(** Where the lumps end: past the padded end of each of them. *)
Definition end_of_lumps (start : nat) (locs : list (nat * nat)) : nat :=
  fold_left (fun acc loc => Nat.max acc (align_up (fst loc + snd loc))) locs start.

(** A C string: the bytes before the first NUL. *)
Fixpoint c_string (bs : list Byte.byte) : list Byte.byte :=
  match bs with
  | [] => []
  | b :: r => if Byte.eqb b Byte.x00 then [] else b :: c_string r
  end.

Definition read_name (file : list Byte.byte) (pos : nat) : result string :=
  if pos + name_width <=? length file
  then Ok (string_of_list_byte (c_string (slice pos name_width file)))
  else Fail TruncatedFile.

Fixpoint read_entries (file : list Byte.byte) (pos n : nat)
    : result (list (string * list Byte.byte)) :=
  match n with
  | O => Ok []
  | S n' =>
      name ← read_name file pos;
      off ← read_size file (pos + name_width);
      len ← read_size file (pos + name_width + 4);
      blob ← read_blob file (off, len);
      rest ← read_entries file (pos + name_width + 8) n';
      Ok ((name, blob) :: rest)
  end.

(** The extensible lump table section: present when the file goes on
    after the lumps. *)
Definition read_bspx (file : list Byte.byte) (pos : nat)
    : result (list (string * list Byte.byte)) :=
  if pos <? length file then
    n ← read_size file pos;
    read_entries file (pos + 4) n
  else Ok [].

(** Modelled from the spec: [LoadBSPFile] (defined in [bspfile.cc]) reads
    the header, resolves the format, parses each lump per its
    descriptor's record size into the structural variant of the resolved
    format, and parses the trailing extensible lump table section if
    present.  (The embedded map name it also yields is not part of the
    document.) *)
Definition LoadBSPFile (file : list Byte.byte) : result document :=
  F ← detect file;
  let n := length (lumps F) in
  locs ← read_locs file (header_len F) n;
  l ← parse_lumps file (lumps F) locs;
  ents ← read_bspx file (end_of_lumps (header_len F + 8 * n) locs);
  Ok (mk_document (Some F) (Some F) (populate (family F) l) (list_to_map ents)).

(** *** Conversion *)

(** The documented compatible pairs of formats of different families, the
    re-expression of a shape in its extended-limits format, and the
    re-expression across families, which remaps the content values and
    stops on a value the target cannot hold. *)
Variable compatible : bspversion_t -> bspversion_t -> bool.
Variable widen : bspversion_t -> bspversion_t -> lumps_t -> lumps_t.
Variable remap : bspversion_t -> bspversion_t -> lumps_t -> result lumps_t.

(** In-family upgrade: the target is the format's extended-limits
    format, of the same game. *)
Definition in_family_upgrade (F T : bspversion_t) : bool :=
  match extended_limits F with
  | Some E => same_format E T && (game F =? game T)%N
  | None => false
  end.

(** The formats reachable from [F]. *)
Definition reachable (F T : bspversion_t) : bool :=
  same_format F T || in_family_upgrade F T || compatible F T.

(** The formats reachable from a document: none when nothing is loaded. *)
Definition reachable_from (doc : document) (T : bspversion_t) : bool :=
  match matchedFormat doc, populated (structuralVariant doc) with
  | Some F, Some _ => reachable F T
  | _, _ => false
  end.

Definition converted (doc : document) (T : bspversion_t) (l : lumps_t) : document :=
  mk_document (Some T) (loadFormat doc) (populate (family T) l)
    (extensionLumpTable doc).

(** Modelled from the spec: [ConvertBSPFormat] (defined in [bspfile.cc];
    the header says it returns false if the conversion failed)
    re-expresses the structural content in the target's shape.  It
    returns the document as it leaves it and the boolean; a fault stops
    it with a failure instead. *)
Definition ConvertBSPFormat (doc : document) (to_version : bspversion_t)
    : result (document * bool) :=
  match matchedFormat doc, populated (structuralVariant doc) with
  | Some F, Some (_, l) =>
      if same_format F to_version then Ok (doc, true)
      else if in_family_upgrade F to_version then
        Ok (converted doc to_version (widen F to_version l), true)
      else if compatible F to_version then
        l' ← remap F to_version l;
        Ok (converted doc to_version l', true)
      else Ok (doc, false)
  | _, _ => Ok (doc, false)
  end.

End Engine.

(** *** A small registry and document *)

Definition spec_entities : lumpspec_t := mk_lumpspec "entities" 1.
Definition spec_planes : lumpspec_t := mk_lumpspec "planes" 4.

Definition demo_q2 : bspversion_t :=
  mk_bspversion IBSP (Some 38%Z) (Some "q2bsp"%string)
    (Some "Quake II BSP"%string) [spec_entities; spec_planes] nullptr None.

Definition demo_q1 : bspversion_t :=
  mk_bspversion 29%Z None (Some "bsp29"%string)
    (Some "Quake BSP"%string) [spec_entities; spec_planes] nullptr
    (Some (mk_bspversion 844124994%Z None (Some "bsp2"%string)
             (Some "Quake BSP2"%string) [spec_entities; spec_planes] nullptr None)).

Definition demo_bsp2 : bspversion_t :=
  mk_bspversion 844124994%Z None (Some "bsp2"%string)
    (Some "Quake BSP2"%string) [spec_entities; spec_planes] nullptr None.

Definition demo_registry : list bspversion_t := [demo_q1; demo_bsp2; demo_q2].

Definition demo_family (F : bspversion_t) : family_t :=
  if (ident F =? IBSP)%Z then fam_q2bsp
  else if (ident F =? 29)%Z then fam_bsp29 else fam_bsp2.

Definition demo_lumps : lumps_t :=
  [ [[Byte.x7b]; [Byte.x7d]; [Byte.x0a]];
    [[Byte.x01; Byte.x02; Byte.x03; Byte.x04];
     [Byte.x05; Byte.x06; Byte.x07; Byte.x08]] ].

Definition demo_table : gmap string (list Byte.byte) :=
  <["RGBLIGHTING"%string := [Byte.xff; Byte.x80; Byte.x00]]>
    (<["LMSHIFT"%string := [Byte.x04]]> ∅).

Definition demo_doc : document :=
  mk_document (Some demo_q2) (Some demo_q2) (holds_q2bsp demo_lumps) demo_table.

Definition demo_doc_q1 : document :=
  mk_document (Some demo_q1) (Some demo_q1) (holds_bsp29 demo_lumps) ∅.

(** The padding rule and name field of the small examples, and a
    conversion table with no cross-family pair. *)
Definition demo_align : nat := 4.
Definition demo_name_width : nat := 24.
Definition no_pairs (F T : bspversion_t) : bool := false.
Definition keep_lumps (F T : bspversion_t) (l : lumps_t) : lumps_t := l.
Definition remap_lumps (F T : bspversion_t) (l : lumps_t) : result lumps_t := Ok l.

(** A document with an extension name of twenty-six characters, and a
    document whose first lump holds [n] records of one byte. *)
Definition long_name : string := "ABCDEFGHIJKLMNOPQRSTUVWXYZ".

Definition long_name_doc : document :=
  mk_document (Some demo_q2) (Some demo_q2) (holds_q2bsp demo_lumps)
    (<[long_name := [Byte.x04]]> ∅).

Definition oversize_doc (n : nat) : document :=
  mk_document (Some demo_q2) (Some demo_q2)
    (holds_q2bsp [replicate n [Byte.x00]; []]) ∅.

End Container.

(** ** Array conversion *)

Module ArrayCast.

(** A conversion returns a value or throws the overflow error, which
    carries the message it was given. *)
Inductive outcome (A : Type) : Type :=
  | Returned (a : A)
  | Overflow (message : string).
Arguments Returned {A} a.
Arguments Overflow {A} message.

Section ArrayCast.
(** The element types of the source and destination arrays. *)
Context {Src Dst : Type}.

(** [dest.size()], a value-initialised destination element, and the
    conversion of one element: [numeric_cast] with the overflow message
    for arithmetic element types, which throws on a value out of range,
    [static_cast] otherwise, which always returns. *)
Variable dest_size : nat.
Variable zero : Dst.
Variable cast : Src -> string -> outcome Dst.

(** The loop [for (i = ...; i < min(dest.size(), src.size()); i++)] with
    [count] iterations left; [dest[i] = ...] updates the array in place. *)
Fixpoint array_cast_loop (src : list Src) (overflow_message : string)
    (i count : nat) (dest : list Dst) : outcome (list Dst) :=
  match count with
  | O => Returned dest
  | S count' =>
      match src !! i with
      | Some x =>
          match cast x overflow_message with
          | Returned d =>
              array_cast_loop src overflow_message (S i) count' (<[i := d]> dest)
          | Overflow m => Overflow m
          end
      | None => Returned dest
      end
  end.

(* shortcut template to trim (& convert) std::arrays between two lengths *)
Definition array_cast (src : list Src) (overflow_message : string)
    : outcome (list Dst) :=
  array_cast_loop src overflow_message 0
    (Nat.min dest_size (length src)) (replicate dest_size zero).

(** Converting the elements of a list one after the other, stopping at
    the first overflow. *)
Fixpoint cast_all (l : list Src) (overflow_message : string) : outcome (list Dst) :=
  match l with
  | [] => Returned []
  | x :: r =>
      match cast x overflow_message with
      | Returned d =>
          match cast_all r overflow_message with
          | Returned ds => Returned (d :: ds)
          | Overflow m => Overflow m
          end
      | Overflow m => Overflow m
      end
  end.

(** The first overflow among the values of a list, those before it
    converting. *)
Definition first_overflow (l : list Src) (msg m : string) : Prop :=
  exists (i : nat) (x : Src),
    l !! i = Some x /\ cast x msg = Overflow m /\
    forall (j : nat) (y : Src), (j < i)%nat -> l !! j = Some y ->
      exists d : Dst, cast y msg = Returned d.

End ArrayCast.

(** A bounds-checked conversion into [lo..hi], as [numeric_cast] between
    integer types: the value when it is in range, the overflow error
    otherwise. *)
Definition checked (lo hi : Z) (v : Z) (overflow_message : string) : outcome Z :=
  if ((lo <=? v) && (v <=? hi))%Z then Returned v else Overflow overflow_message.

Definition to_int16 : Z -> string -> outcome Z := checked (-32768) 32767.
Definition to_int32 : Z -> string -> outcome Z := checked (-2147483648) 2147483647.

End ArrayCast.

(** ** Texture vectors *)

Module Texvec.

Section Texvec.
(** The scalar type [T] of [texvec<T>]. *)
Context {T : Type}.

(** [texvec<T>] is a [qmat<T, 2, 4>]: two rows, four columns, its eight
    values stored column after column.  [at(row, col)] is the value at
    [col * 2 + row]. *)
Definition at_index (row col : nat) : nat := col * 2 + row.

Definition at_ (m : list T) (row col : nat) : option T := m !! at_index row col.

(** A stream of values: [stream <= v] appends [v] to an output stream,
    [stream >= v] takes the next value of an input stream into [v] and
    leaves [v] alone when the stream has run out. *)
Definition put (stream : list T) (v : option T) : list T :=
  match v with
  | Some x => stream ++ [x]
  | None => stream
  end.

Definition get (m : list T) (idx : nat) (stream : list T) : list T * list T :=
  match stream with
  | v :: rest => (<[idx := v]> m, rest)
  | [] => (m, [])
  end.

(** The two nested loops: [i] over the rows, [x] over the columns. *)
Definition cells : list (nat * nat) :=
  i ← seq 0 2; x ← seq 0 4; [(i, x)].

Definition stream_write (m : list T) (stream : list T) : list T :=
  foldl (fun s cell => put s (at_ m (fst cell) (snd cell))) stream cells.

Definition stream_read (m : list T) (stream : list T) : list T * list T :=
  foldl (fun st cell => get (fst st) (at_index (fst cell) (snd cell)) (snd st))
    (m, stream) cells.

(** The rows of the matrix. *)
Definition row (m : list T) (i : nat) : list (option T) :=
  [at_ m i 0; at_ m i 1; at_ m i 2; at_ m i 3].

End Texvec.

Definition sample_texvec : list Z := [1; 2; 3; 4; 5; 6; 7; 8]%Z.

End Texvec.

(** ** Orders of the fields, ownership of the buffers, chained setters *)

Module Ordering.
Import Scalars Rel.

(** The position of a floating-point value that is not NaN on the
    extended line, as three integers compared in order: its class
    (negative infinity, negative, zero, positive, positive infinity),
    then exponent and mantissa, both negated for a negative value. *)
Definition vec_key (x : vec_t) : Z * Z * Z :=
  match x with
  | S754_zero _ => (0, 0, 0)
  | S754_infinity s => (if s then -2 else 2, 0, 0)
  | S754_nan => (0, 0, 0)
  | S754_finite s m e =>
      if s then (-1, - e, Z.neg m) else (1, e, Z.pos m)
  end%Z.

Definition key_lt (k l : Z * Z * Z) : Prop :=
  (fst (fst k) < fst (fst l) \/
   (fst (fst k) = fst (fst l) /\
    (snd (fst k) < snd (fst l) \/
     (snd (fst k) = snd (fst l) /\ snd k < snd l))))%Z.

Definition key_eq (k l : Z * Z * Z) : Prop :=
  (fst (fst k) = fst (fst l) /\ snd (fst k) = snd (fst l) /\ snd k = snd l)%Z.

Definition int32_key (z : Z) : Z * Z * Z := (z, 0, 0)%Z.
Definition bool_key (b : bool) : Z * Z * Z := (if b then 1 else 0, 0, 0)%Z.
Definition qvec3b_key (v : qvec3b) : Z * Z * Z := (qv0 v, qv1 v, qv2 v).

(** What the head of a tuple must satisfy, on its ordered values, for the
    tuple comparison to be transitive. *)
Class FieldOrder (A : Type) `{Less A, Equal A, Ordered A} : Prop := {
  field_trichotomy : forall x y : A,
    ordered x -> ordered y -> exactly_one (less x y) (less y x) (equal x y);
  field_lt_trans : forall x y z : A,
    ordered x -> ordered y -> ordered z ->
    less x y = true -> less y z = true -> less x z = true;
  field_eq_trans : forall x y z : A,
    ordered x -> ordered y -> ordered z ->
    equal x y = true -> equal y z = true -> equal x z = true;
  field_eq_lt : forall x y z : A,
    ordered x -> ordered y -> ordered z ->
    equal x y = true -> less y z = true -> less x z = true;
  field_lt_eq : forall x y z : A,
    ordered x -> ordered y -> ordered z ->
    less x y = true -> equal y z = true -> less x z = true
}.

(** [<] is transitive on the ordered values. *)
Class TransitiveLess (A : Type) `{Less A, Ordered A} : Prop :=
  less_trans : forall x y z : A,
    ordered x -> ordered y -> ordered z ->
    less x y = true -> less y z = true -> less x z = true.

(** [==] is transitive on the ordered values. *)
Class TransitiveEqual (A : Type) `{Equal A, Ordered A} : Prop :=
  equal_trans : forall x y z : A,
    ordered x -> ordered y -> ordered z ->
    equal x y = true -> equal y z = true -> equal x z = true.

(** [<] never holds both ways, on any values. *)
Class AsymmetricLess (A : Type) `{Less A} : Prop :=
  less_asym : forall x y : A, less x y = true -> less y x = false.

(** Two keys of an ordered container are equivalent when neither is less
    than the other. *)
Definition equivalent (a b : Surfflags.surfflags_t) : bool :=
  negb (Surfflags.operator_lt a b) && negb (Surfflags.operator_lt b a).

End Ordering.

Module Samples.
Import Bspversion.

(** The same format under another short name. *)
Definition sample_q2_alias : bspversion_t :=
  mk_bspversion IBSP (Some 38%Z) (Some "quake2"%string)
    (Some "Quake II BSP"%string) [] nullptr None.

End Samples.

Module Ownership.
Import Bspversion Bspdata.

(** A memory with two live blocks, of three bytes at 8192 and of two
    bytes at 12288. *)
Definition sample_memory : memory :=
  mk_memory
    (write_bytes 8192%N [Byte.x01; Byte.x02; Byte.x03]
       (write_bytes 12288%N [Byte.x0a; Byte.x0b] ∅))
    ({[ 8192%N ]} ∪ {[ 12288%N ]}).

End Ownership.

Module Chains.
Import Contentflags.

Section WithGameData.
Context {any : Type}.

(** [c.set_clips_same_type(b).set_mirrored(a)]. *)
Definition set_clips_then_mirrored (this : loc) (a b : option bool)
    (h : gmap loc (contentflags_t any)) : option (loc * gmap loc (contentflags_t any)) :=
  match set_clips_same_type this b h with
  | Some (r, h') => set_mirrored r a h'
  | None => None
  end.

(** [c.set_mirrored(a).set_mirrored(b)] and
    [c.set_clips_same_type(a).set_clips_same_type(b)]. *)
Definition set_mirrored_twice (this : loc) (a b : option bool)
    (h : gmap loc (contentflags_t any)) : option (loc * gmap loc (contentflags_t any)) :=
  match set_mirrored this a h with
  | Some (r, h') => set_mirrored r b h'
  | None => None
  end.

Definition set_clips_twice (this : loc) (a b : option bool)
    (h : gmap loc (contentflags_t any)) : option (loc * gmap loc (contentflags_t any)) :=
  match set_clips_same_type this a h with
  | Some (r, h') => set_clips_same_type r b h'
  | None => None
  end.

End WithGameData.

End Chains.

(** * Properties *)

(** ** Comparison of the scalar fields *)

Module RelFacts.
Import Scalars Rel.

Lemma exactly_one_compare (c : comparison) :
  exactly_one
    (match c with Lt => true | _ => false end)
    (match CompOpp c with Lt => true | _ => false end)
    (match c with Eq => true | _ => false end).
Proof. unfold exactly_one. destruct c; simpl; tauto. Qed.

(** Without NaN the IEEE comparison always answers, and swapping the
    operands swaps the answer. *)
Lemma SFcompare_swap (x y : vec_t) :
  is_nan x = false -> is_nan y = false ->
  exists c, SFcompare x y = Some c /\ SFcompare y x = Some (CompOpp c).
Proof.
  intros Hx Hy.
  destruct x as [sx|sx| |sx mx ex]; try discriminate;
  destruct y as [sy|sy| |sy my ey]; try discriminate; simpl;
  try (destruct sx; eexists; split; reflexivity);
  try (destruct sy; eexists; split; reflexivity);
  try (destruct sx, sy; eexists; split; reflexivity).
  eexists; split; [reflexivity|].
  rewrite (Z.compare_antisym ex ey).
  rewrite !Pos.compare_cont_spec; simpl.
  rewrite (Pos.compare_antisym mx my).
  destruct sx, sy; simpl; try reflexivity;
  destruct (ex ?= ey)%Z; simpl; try reflexivity;
  destruct (mx ?= my)%positive; reflexivity.
Qed.

#[export] Instance trichotomy_int32 : Trichotomy Z.
Proof.
  intros x y _ _. unfold less, equal, less_int32, equal_int32, exactly_one.
  destruct (Z.ltb_spec x y), (Z.ltb_spec y x), (Z.eqb_spec x y); lia.
Qed.

#[export] Instance trichotomy_bool : Trichotomy bool.
Proof. intros [] [] _ _; unfold exactly_one; simpl; tauto. Qed.

#[export] Instance trichotomy_vec : Trichotomy vec_t.
Proof.
  intros x y Hx Hy.
  destruct (SFcompare_swap x y Hx Hy) as (c & Hxy & Hyx).
  unfold less, equal, less_vec, equal_vec, vec_lt, vec_eq, SFltb, SFeqb.
  rewrite Hxy, Hyx. apply exactly_one_compare.
Qed.

#[export] Instance trichotomy_qvec3b : Trichotomy qvec3b.
Proof.
  intros [x0 x1 x2] [y0 y1 y2] _ _.
  pose proof (trichotomy_int32 x0 y0 I I) as H0.
  pose proof (trichotomy_int32 x1 y1 I I) as H1.
  pose proof (trichotomy_int32 x2 y2 I I) as H2.
  unfold less, equal, less_int32, equal_int32 in H0, H1, H2.
  unfold less, equal, less_qvec3b, equal_qvec3b, qvec3b_lt, qvec3b_eq; simpl.
  unfold exactly_one in *.
  destruct H0 as [(-> & -> & ->)|[(-> & -> & ->)|(-> & -> & ->)]]; simpl;
    [tauto | tauto |].
  destruct H1 as [(-> & -> & ->)|[(-> & -> & ->)|(-> & -> & ->)]]; simpl;
    [tauto | tauto |].
  exact H2.
Qed.

#[export] Instance trichotomy_unit : Trichotomy unit.
Proof. intros [] [] _ _. unfold exactly_one; simpl; tauto. Qed.

(** The tuple comparison inherits the property from the head and the
    tail. *)
#[export] Instance trichotomy_tuple {A B}
  `{Less A, Equal A, Ordered A, Less B, Equal B, Ordered B}
  `{!Trichotomy A, !Trichotomy B} : Trichotomy (A * B).
Proof.
  intros [x xs] [y ys] [Hx Hxs] [Hy Hys]; simpl in *.
  pose proof (trichotomy x y Hx Hy) as Hh.
  pose proof (trichotomy xs ys Hxs Hys) as Ht.
  unfold less, equal, less_tuple, equal_tuple; simpl.
  unfold exactly_one in *.
  destruct Hh as [(-> & -> & ->)|[(-> & -> & ->)|(-> & -> & ->)]]; simpl;
    [tauto | tauto | exact Ht].
Qed.

#[export] Instance lex_agrees_unit : LexAgrees unit.
Proof. intros [] [] _ _. unfold less, less_unit, lex, lex_unit. split; [discriminate | tauto]. Qed.

#[export] Instance lex_agrees_tuple {A B}
  `{Less A, Equal A, Ordered A, Less B, Ordered B, Lex B}
  `{!Trichotomy A, !LexAgrees B} : LexAgrees (A * B).
Proof.
  intros [x xs] [y ys] [Hx Hxs] [Hy Hys]; simpl in *.
  pose proof (trichotomy x y Hx Hy) as Hh.
  pose proof (lex_agrees xs ys Hxs Hys) as Ht.
  unfold less, less_tuple, lex, lex_tuple; simpl.
  unfold exactly_one in Hh.
  destruct Hh as [(-> & -> & ->)|[(-> & -> & ->)|(-> & -> & ->)]]; simpl.
  - split; [intros _; left; reflexivity | reflexivity].
  - split; [discriminate | intros [?|[? _]]; discriminate].
  - rewrite Ht. split; [intros ?; right; split; [reflexivity | assumption] |].
    intros [?|[_ ?]]; [discriminate | assumption].
Qed.

End RelFacts.

(** ** Surface flags *)

Module SurfflagsFacts.
Import Scalars Rel RelFacts Surfflags.

Lemma vec_to_bool_differs (x : vec_t) :
  vec_to_bool x = negb (vec_eq x vec_zero).
Proof. destruct x as [[]|[]| |[] m e]; reflexivity. Qed.

Lemma vec_to_bool_true (x : vec_t) :
  vec_to_bool x = true <-> vec_eq x vec_zero = false.
Proof. rewrite vec_to_bool_differs. destruct (vec_eq x vec_zero); simpl; split; congruence. Qed.

Lemma emptyExact_zero (v : qvec3b) :
  emptyExact v = true <-> v = qvec3b_zero.
Proof.
  destruct v as [a b c]. unfold emptyExact, qvec3b_zero; simpl.
  rewrite !andb_true_iff, !Z.eqb_eq. split.
  - intros [[-> ->] ->]. reflexivity.
  - intros [= -> -> ->]. auto.
Qed.

Lemma not_emptyExact (v : qvec3b) :
  negb (emptyExact v) = true <-> v <> qvec3b_zero.
Proof.
  rewrite negb_true_iff, <- emptyExact_zero.
  destruct (emptyExact v); split; congruence.
Qed.

Lemma flag_set (b : bool) : b = true <-> b <> false.
Proof. destruct b; split; congruence. Qed.

Lemma needs_write_default : needs_write surfflags_default = false.
Proof. reflexivity. Qed.

Lemma needs_write_extended (s : surfflags_t) :
  needs_write s = true <-> some_extended_field_differs s.
Proof.
  unfold needs_write, some_extended_field_differs. simpl.
  rewrite !orb_true_iff, !vec_to_bool_true, not_emptyExact.
  rewrite <- !flag_set. tauto.
Qed.

Lemma needs_write_frame (n : Z) (k h : bool) (s : surfflags_t) :
  needs_write (with_native n (with_is_skip k (with_is_hint h s))) = needs_write s.
Proof. reflexivity. Qed.

(** C1, as stated, fails: changing [native], [is_skip] or [is_hint] of a
    default value away from its default leaves [needs_write] false. *)
Lemma needs_write_misses_native_skip_hint :
  (some_field_differs (with_native 1 surfflags_default) /\
   needs_write (with_native 1 surfflags_default) = false) /\
  (some_field_differs (with_is_skip true surfflags_default) /\
   needs_write (with_is_skip true surfflags_default) = false) /\
  (some_field_differs (with_is_hint true surfflags_default) /\
   needs_write (with_is_hint true surfflags_default) = false).
Proof.
  repeat split.
  - left. simpl. lia.
  - right. left. simpl. discriminate.
  - right. right. left. simpl. discriminate.
Qed.

(** C1 (amended): [needs_write] is true exactly when one of the eleven
    fields [no_dirt], [no_shadow], [no_bounce], [no_minlight],
    [no_expand], [light_ignore], [phong_angle], [phong_angle_concave],
    [minlight], [minlight_color], [light_alpha] differs from its default
    (a floating-point field differs when it is [!=] zero); it is false on
    a default value, and [native], [is_skip] and [is_hint] are not
    inspected. *)
Theorem needs_write_iff_extended_field_differs :
  (forall s : surfflags_t, needs_write s = true <-> some_extended_field_differs s) /\
  needs_write surfflags_default = false /\
  (forall (n : Z) (k h : bool) (s : surfflags_t),
     needs_write (with_native n (with_is_skip k (with_is_hint h s))) = needs_write s).
Proof.
  split; [exact needs_write_extended|].
  split; [exact needs_write_default | exact needs_write_frame].
Qed.

(** C3, as stated, fails on a NaN field: neither value is less than the
    other, and their fields are not all equal. *)
Lemma operator_lt_nan_unordered :
  operator_lt nan_angle surfflags_default = false /\
  operator_lt surfflags_default nan_angle = false /\
  all_fields_equal nan_angle surfflags_default = false /\
  nan_angle <> surfflags_default.
Proof. repeat split; try reflexivity. discriminate. Qed.

Lemma nan_free_fields (s : surfflags_t) :
  nan_free s <->
  is_nan (phong_angle s) = false /\ is_nan (phong_angle_concave s) = false /\
  is_nan (minlight s) = false /\ is_nan (light_alpha s) = false.
Proof.
  unfold nan_free, as_tuple, ordered, ordered_tuple; cbn [fst snd].
  unfold ordered, ordered_int32, ordered_bool, ordered_vec, ordered_qvec3b,
    ordered_unit.
  tauto.
Qed.

Lemma operator_lt_trichotomy (a b : surfflags_t) :
  nan_free a -> nan_free b ->
  exactly_one (operator_lt a b) (operator_lt b a) (all_fields_equal a b).
Proof. intros Ha Hb. exact (trichotomy (as_tuple a) (as_tuple b) Ha Hb). Qed.

Lemma operator_lt_lex (a b : surfflags_t) :
  nan_free a -> nan_free b -> (operator_lt a b = true <-> lex_lt a b).
Proof. intros Ha Hb. exact (lex_agrees (as_tuple a) (as_tuple b) Ha Hb). Qed.

(** C3 (amended): on surface-flags values whose floating-point fields are
    not NaN, exactly one of [a < b], [b < a] and field-wise equality of
    the fourteen fields holds, [a < b] is the lexicographic order of the
    field tuple, and [a > b] is [b < a]. *)
Theorem operator_lt_strict_total_order (a b : surfflags_t) :
  nan_free a -> nan_free b ->
  exactly_one (operator_lt a b) (operator_lt b a) (all_fields_equal a b) /\
  (operator_lt a b = true <-> lex_lt a b) /\
  operator_gt a b = operator_lt b a.
Proof.
  intros Ha Hb. split; [apply operator_lt_trichotomy; assumption|].
  split; [apply operator_lt_lex; assumption | reflexivity].
Qed.

Lemma operator_lt_strict_total_order_witness :
  exactly_one (operator_lt surfflags_default sample_phong)
    (operator_lt sample_phong surfflags_default)
    (all_fields_equal surfflags_default sample_phong) /\
  (operator_lt surfflags_default sample_phong = true <->
   lex_lt surfflags_default sample_phong) /\
  operator_gt surfflags_default sample_phong =
  operator_lt sample_phong surfflags_default.
Proof.
  apply (operator_lt_strict_total_order surfflags_default sample_phong);
    repeat split.
Defined.

End SurfflagsFacts.

(** ** Display form of a format descriptor *)

Module BspversionFacts.
Import Bspversion.

Lemma low_char_zero (x : Z) :
  Ascii.eqb (low_char x) zero = (Z.land x 255 =? 0).
Proof.
  unfold low_char.
  assert (Hr : 0 <= Z.land x 255 < 256).
  { change 255 with (Z.ones 8). rewrite Z.land_ones by lia.
    apply Z.mod_pos_bound. lia. }
  destruct (Z.eqb_spec (Z.land x 255) 0) as [->|Hne]; [reflexivity|].
  apply Ascii.eqb_neq. intros Heq.
  apply (f_equal N_of_ascii) in Heq.
  rewrite N_ascii_embedding in Heq by lia.
  change (N_of_ascii zero) with 0%N in Heq. lia.
Qed.

(** Reading the character array as a C string yields the identifier's
    bytes up to the first zero byte. *)
Lemma c_str_ident_chars (i : Z) :
  c_str (ident_chars i) = identifier_letters i.
Proof.
  unfold ident_chars, identifier_letters, ident_bytes.
  cbn [c_str letters_of].
  rewrite !low_char_zero. unfold low_char.
  destruct (Z.land i 255 =? 0); [reflexivity|].
  destruct (Z.land (Z.shiftr i 8) 255 =? 0); [reflexivity|].
  destruct (Z.land (Z.shiftr i 16) 255 =? 0); [reflexivity|].
  destruct (Z.land (Z.shiftr i 24) 255 =? 0); reflexivity.
Qed.

Lemma identifier_letters_four (i : Z) :
  Forall (fun b => b <> 0) (ident_bytes i) ->
  identifier_letters i = four_letters i.
Proof.
  unfold identifier_letters, ident_bytes, four_letters, low_char.
  intros H. repeat (apply Forall_cons_iff in H; destruct H as [? H]).
  cbn [letters_of].
  repeat match goal with
  | Hn : ?b <> 0 |- context [?b =? 0] =>
      destruct (Z.eqb_spec b 0); [contradiction|]
  end.
  reflexivity.
Qed.

Example format_q2 : format sample_q2 = Some "Quake II BSP IBSP:38"%string.
Proof. reflexivity. Qed.

Example format_q1 : format sample_q1 = Some "Quake BSP bsp29"%string.
Proof. reflexivity. Qed.

Example format_q2_unnamed : format sample_q2_unnamed = Some "IBSP:38"%string.
Proof. reflexivity. Qed.

Example decimal_negative : decimal (-7) = "-7"%string.
Proof. reflexivity. Qed.

(** C4, as stated, fails: a descriptor that has a display name is rendered
    with that name and a space before the [IBSP:38] or [bsp29] token. *)
Lemma format_writes_display_name :
  format sample_q2 <>
    Some (String.append (four_letters (ident sample_q2)) (String.append ":" (decimal 38))) /\
  format sample_q2 = Some "Quake II BSP IBSP:38"%string /\
  format sample_q1 <> short_name sample_q1 /\
  format sample_q1 = Some "Quake BSP bsp29"%string.
Proof. repeat split; discriminate. Qed.

(** C4 (amended): the display formatting writes the display name and a
    space when the descriptor has a display name, and then, for a
    version-discriminated format, the identifier's letters (its bytes
    from the low one up to the first zero byte), a colon and the version
    in decimal, and for a format without a version its short name, with
    nothing after it; an identifier of four non-zero bytes gives exactly
    four letters. *)
Theorem format_display (v : bspversion_t) :
  format v =
    match version v, short_name v with
    | Some ver, _ =>
        Some (String.append (display_prefix v)
                (String.append (identifier_letters (ident v))
                   (String.append ":" (decimal ver))))
    | None, Some s => Some (String.append (display_prefix v) s)
    | None, None => None
    end /\
  (name v = None -> display_prefix v = EmptyString) /\
  (Forall (fun b => b <> 0) (ident_bytes (ident v)) ->
   identifier_letters (ident v) = four_letters (ident v)).
Proof.
  split; [|split].
  - unfold format, display_prefix. rewrite c_str_ident_chars.
    destruct (version v), (short_name v); reflexivity.
  - unfold display_prefix. intros ->. reflexivity.
  - apply identifier_letters_four.
Qed.

Lemma format_display_witness :
  format sample_q2_unnamed = Some "IBSP:38"%string /\
  identifier_letters IBSP = four_letters IBSP.
Proof.
  destruct (format_display sample_q2_unnamed) as (Hf & _ & Hl).
  split.
  - rewrite Hf. reflexivity.
  - apply Hl. repeat constructor; cbv; discriminate.
Defined.

End BspversionFacts.

(** ** Content flags *)

Module ContentflagsFacts.
Import Contentflags.

Section WithGameData.
Context {any : Type}.

(** C7: [is_any_solid] is true exactly when [is_solid] or
    [is_detail_solid] is, whatever the bodies of the two; its result is
    the disjunction of their two answers and depends on nothing else. *)
Theorem is_any_solid_is_solid_or_detail_solid
    (impl : OutOfLine any) (c : contentflags_t any) (game : gamedef_t any) :
  (is_any_solid c game = true <->
     is_solid c game = true \/ is_detail_solid c game = true) /\
  is_any_solid c game = is_solid c game || is_detail_solid c game.
Proof. split; [apply orb_true_iff | reflexivity]. Qed.

(** C8: the one-argument [will_clip_same_type] is the two-argument form
    applied to the value and itself, and with the delegating bodies both
    forms answer with the game's [contents_clip_same_type]. *)
Theorem will_clip_same_type_self
    (c other : contentflags_t any) (game : gamedef_t any) :
  (forall impl : OutOfLine any,
     will_clip_same_type c game = will_clip_same_type_other c game c) /\
  will_clip_same_type (impl := delegating) c game =
    contents_clip_same_type game c c /\
  will_clip_same_type_other (OutOfLine := delegating) c game other =
    contents_clip_same_type game c other.
Proof. repeat split. Qed.

Lemma assign_mirror_inside_fields (v : option bool) (c : contentflags_t any) :
  mirror_inside (assign_mirror_inside v c) = v /\
  native (assign_mirror_inside v c) = native c /\
  game_data (assign_mirror_inside v c) = game_data c /\
  clips_same_type (assign_mirror_inside v c) = clips_same_type c /\
  illusionary_visblocker (assign_mirror_inside v c) = illusionary_visblocker c.
Proof. repeat split. Qed.

Lemma assign_clips_same_type_fields (v : option bool) (c : contentflags_t any) :
  clips_same_type (assign_clips_same_type v c) = v /\
  native (assign_clips_same_type v c) = native c /\
  game_data (assign_clips_same_type v c) = game_data c /\
  mirror_inside (assign_clips_same_type v c) = mirror_inside c /\
  illusionary_visblocker (assign_clips_same_type v c) = illusionary_visblocker c.
Proof. repeat split. Qed.

Lemma set_mirrored_some (this : loc) (v : option bool)
    (h : gmap loc (contentflags_t any)) (c : contentflags_t any) :
  h !! this = Some c ->
  set_mirrored this v h = Some (this, <[this := assign_mirror_inside v c]> h).
Proof. intros Hc. unfold set_mirrored. rewrite Hc. reflexivity. Qed.

Lemma set_clips_same_type_some (this : loc) (v : option bool)
    (h : gmap loc (contentflags_t any)) (c : contentflags_t any) :
  h !! this = Some c ->
  set_clips_same_type this v h =
    Some (this, <[this := assign_clips_same_type v c]> h).
Proof. intros Hc. unfold set_clips_same_type. rewrite Hc. reflexivity. Qed.

(** A fluent chain works on one object: both overrides land in it. *)
Lemma set_mirrored_then_clips_some (this : loc) (a b : option bool)
    (h : gmap loc (contentflags_t any)) (c : contentflags_t any) :
  h !! this = Some c ->
  set_mirrored_then_clips this a b h =
    Some (this, <[this := assign_clips_same_type b (assign_mirror_inside a c)]> h).
Proof.
  intros Hc. unfold set_mirrored_then_clips.
  rewrite (set_mirrored_some _ _ _ _ Hc).
  rewrite (set_clips_same_type_some this b _ (assign_mirror_inside a c))
    by apply lookup_insert_eq.
  rewrite insert_insert_eq. reflexivity.
Qed.

(** C9: [set_mirrored] and [set_clips_same_type] store their argument in
    [mirror_inside] and [clips_same_type] respectively, leave every other
    field of the object (and every other object) unchanged and return
    the reference they were called on; an unset override and an override
    set to false are different stored values. *)
Theorem setters_set_only_their_override (this : loc) (v : option bool)
    (h : gmap loc (contentflags_t any)) (c : contentflags_t any) :
  h !! this = Some c ->
  setter_effect set_mirrored mirror_inside clips_same_type this v h c /\
  setter_effect set_clips_same_type clips_same_type mirror_inside this v h c /\
  mirror_inside (assign_mirror_inside None c) <>
    mirror_inside (assign_mirror_inside (Some false) c) /\
  clips_same_type (assign_clips_same_type None c) <>
    clips_same_type (assign_clips_same_type (Some false) c).
Proof.
  intros Hc. split; [|split; [|split; discriminate]].
  - eexists _, _. split; [apply (set_mirrored_some _ _ _ _ Hc)|].
    split; [apply lookup_insert_eq|].
    repeat (split; [reflexivity|]).
    intros l Hl. apply lookup_insert_ne. congruence.
  - eexists _, _. split; [apply (set_clips_same_type_some _ _ _ _ Hc)|].
    split; [apply lookup_insert_eq|].
    repeat (split; [reflexivity|]).
    intros l Hl. apply lookup_insert_ne. congruence.
Qed.

End WithGameData.

Lemma setters_set_only_their_override_witness :
  one_object !! 1%positive = Some plain_contents /\
  setter_effect set_mirrored mirror_inside clips_same_type
    1%positive (Some false) one_object plain_contents.
Proof.
  split; [reflexivity|].
  apply (setters_set_only_their_override 1%positive (Some false)
           one_object plain_contents).
  reflexivity.
Defined.

End ContentflagsFacts.

(** ** The document *)

Module BspdataFacts.
Import Bspversion Bspdata.

(** C5: after [transfer(name, pointer, size)] the table maps the name to
    an entry holding that pointer and that size, whatever it held under
    the name before; the other names keep their entries, the name is a
    key once, and the caller's pointer is null. *)
Theorem transfer_moves_buffer
    (b : bspx_t) (xname : string) (xdata : ptr) (xsize : N) :
  entries (fst (transfer xname xdata xsize b)) !! xname =
    Some (mk_bspxentry xdata xsize) /\
  snd (transfer xname xdata xsize b) = nullptr /\
  (forall other : string, other <> xname ->
     entries (fst (transfer xname xdata xsize b)) !! other = entries b !! other) /\
  dom (entries (fst (transfer xname xdata xsize b))) = {[ xname ]} ∪ dom (entries b) /\
  size (entries (fst (transfer xname xdata xsize b))) =
    (if decide (is_Some (entries b !! xname)) then size (entries b)
     else S (size (entries b))).
Proof.
  unfold transfer; simpl.
  split; [apply lookup_insert_eq|].
  split; [reflexivity|].
  split; [intros other Hne; apply lookup_insert_ne; congruence|].
  split; [apply dom_insert_L|].
  destruct (decide (is_Some (entries b !! xname))) as [[e He]|Hn].
  - rewrite <- (insert_delete_id (entries b) xname e He) at 2.
    rewrite <- (insert_delete_eq (entries b)).
    rewrite !map_size_insert_None by apply lookup_delete_eq. reflexivity.
  - apply map_size_insert_None. apply eq_None_not_Some. exact Hn.
Qed.

Lemma transfer_moves_buffer_witness :
  entries (fst (transfer "LMSHIFT" 4096%N 1%N sample_bspx)) !! "LMSHIFT"%string =
    Some (mk_bspxentry 4096%N 1%N) /\
  snd (transfer "LMSHIFT" 4096%N 1%N sample_bspx) = nullptr /\
  entries (fst (transfer "LMSHIFT" 4096%N 1%N sample_bspx)) !! "RGBLIGHTING"%string =
    entries sample_bspx !! "RGBLIGHTING"%string.
Proof.
  destruct (transfer_moves_buffer sample_bspx "LMSHIFT" 4096%N 1%N)
    as (Hnew & Hnull & Hframe & _).
  split; [exact Hnew|]. split; [exact Hnull|].
  apply Hframe. discriminate.
Defined.

Section Document.
Context {shapes : Shapes}.

(** C10: a freshly constructed document holds the empty alternative of
    the tagged union, which is an alternative of its own, different from
    each of the six populated ones; a variant holds one alternative at a
    time. *)
Theorem fresh_document_is_monostate (version0 loadversion0 : option bspversion_t) :
  bsp (fresh_bspdata version0 loadversion0) = monostate /\
  index (bsp (fresh_bspdata version0 loadversion0)) = 0%nat /\
  (forall v : bsp_variant, index v = 0%nat <-> v = monostate) /\
  (forall v : bsp_variant, holds_monostate v = false <-> (1 <= index v <= 6)%nat) /\
  entries (bspx (fresh_bspdata version0 loadversion0)) = ∅.
Proof.
  split; [reflexivity|]. split; [reflexivity|].
  split; [|split; [|reflexivity]].
  - intros v. destruct v; simpl; split; congruence.
  - intros v. destruct v; simpl; split; try lia; try congruence; reflexivity.
Qed.

End Document.

End BspdataFacts.

(** ** The container *)

Module ContainerFacts.
Import Bspdata Bspversion Container.

Local Open Scope nat_scope.

(** *** 32-bit fields *)

Lemma Z_of_byte_of_Z (z : Z) : Z_of_byte (byte_of_Z z) = (z mod 256)%Z.
Proof.
  unfold Z_of_byte, byte_of_Z.
  assert (Hr : (0 <= z mod 256 < 256)%Z) by (apply Z.mod_pos_bound; lia).
  destruct (Byte.of_N (Z.to_N (z mod 256))) as [b|] eqn:Hb.
  - apply Byte.to_of_N in Hb. rewrite Hb. lia.
  - apply Byte.of_N_None_iff in Hb. lia.
Qed.

Lemma le32_bytes_value (z : Z) :
  (z mod 256 + 256 * ((z / 256) mod 256) + 65536 * ((z / 65536) mod 256) +
   16777216 * ((z / 16777216) mod 256) = z mod 4294967296)%Z.
Proof. Z.to_euclidean_division_equations. lia. Qed.

Lemma signed32_mod (z : Z) : int32 z -> signed32 (z mod 4294967296) = z.
Proof.
  unfold int32, signed32. intros Hz.
  destruct (Z.ltb_spec (z mod 4294967296) 2147483648);
    Z.to_euclidean_division_equations; lia.
Qed.

Lemma length_le32 (z : Z) : length (le32 z) = 4.
Proof. reflexivity. Qed.

Lemma slice_middle (pre b post : list Byte.byte) (pos : nat) :
  length pre = pos -> slice pos (length b) (pre ++ b ++ post) = b.
Proof.
  intros <-. unfold slice.
  rewrite drop_app_length. apply take_app_length.
Qed.

Lemma read32_middle (pre post : list Byte.byte) (pos : nat) (z : Z) :
  length pre = pos -> int32 z ->
  read32 (pre ++ le32 z ++ post) pos = Ok z.
Proof.
  intros Hpos Hz. unfold read32.
  rewrite <- (length_le32 z), (slice_middle pre (le32 z) post pos Hpos).
  unfold le32. rewrite !Z_of_byte_of_Z, le32_bytes_value, signed32_mod by exact Hz.
  reflexivity.
Qed.

Lemma read_size_middle (pre post : list Byte.byte) (pos n : nat) :
  length pre = pos -> (Z.of_nat n < 2147483648)%Z ->
  read_size (pre ++ le32 (Z.of_nat n) ++ post) pos = Ok n.
Proof.
  intros Hpos Hn. unfold read_size.
  rewrite (read32_middle pre post pos (Z.of_nat n) Hpos) by (unfold int32; lia).
  simpl. destruct (Z.ltb_spec (Z.of_nat n) 0); [lia|].
  rewrite Nat2Z.id. reflexivity.
Qed.

(** *** Layout *)

Section Layout.
Variable align : nat.

Lemma align_up_ge (pos : nat) : pos <= align_up align pos.
Proof. unfold align_up. lia. Qed.

Lemma place_cons (pos : nat) (b : list Byte.byte) (rest : list (list Byte.byte)) :
  place align pos (b :: rest) =
    let next := align_up align (pos + length b) in
    ((pos, length b) :: fst (fst (place align next rest)),
     b ++ replicate (padding align (pos + length b)) Byte.x00 ++
       snd (fst (place align next rest)),
     snd (place align next rest)).
Proof. simpl. destruct (place align _ rest) as [[locs data] e]. reflexivity. Qed.

(** The bytes placed from [pos] end at the position returned. *)
Lemma place_end (blobs : list (list Byte.byte)) (pos : nat) :
  pos + length (snd (fst (place align pos blobs))) = snd (place align pos blobs).
Proof.
  revert pos. induction blobs as [|b rest IH]; intros pos.
  - simpl. lia.
  - rewrite place_cons. cbn [fst snd].
    rewrite !length_app, length_replicate, <- IH. unfold align_up. lia.
Qed.

Lemma place_lengths (blobs : list (list Byte.byte)) (pos : nat) :
  map snd (fst (fst (place align pos blobs))) = map length blobs.
Proof.
  revert pos. induction blobs as [|b rest IH]; intros pos; [reflexivity|].
  rewrite place_cons. cbn [fst snd map]. rewrite IH. reflexivity.
Qed.

Lemma place_count (blobs : list (list Byte.byte)) (pos : nat) :
  length (fst (fst (place align pos blobs))) = length blobs.
Proof.
  rewrite <- (length_map snd), place_lengths, length_map. reflexivity.
Qed.

(** Every blob lies between [pos] and the end position. *)
Lemma place_ranges (blobs : list (list Byte.byte)) (pos : nat) :
  Forall (fun loc => pos <= fst loc /\ fst loc + snd loc <= snd (place align pos blobs))
    (fst (fst (place align pos blobs))).
Proof.
  revert pos. induction blobs as [|b rest IH]; intros pos; [constructor|].
  rewrite place_cons. cbn [fst snd].
  pose proof (place_end rest (align_up align (pos + length b))) as He.
  pose proof (align_up_ge (pos + length b)) as Hge.
  constructor; [cbn [fst snd]; lia|].
  eapply Forall_impl; [apply IH|]. cbn beta. intros loc [? ?]. lia.
Qed.

(** The loader finds the end of the lumps where the writer left it. *)
Lemma end_of_lumps_place (blobs : list (list Byte.byte)) (pos : nat) :
  end_of_lumps align pos (fst (fst (place align pos blobs))) =
    snd (place align pos blobs).
Proof.
  revert pos. induction blobs as [|b rest IH]; intros pos; [reflexivity|].
  rewrite place_cons. cbn [fst snd]. unfold end_of_lumps in *.
  cbn [fold_left fst snd].
  rewrite Nat.max_r by (pose proof (align_up_ge (pos + length b)); lia).
  apply IH.
Qed.

(** Each location designates its blob in the file, has the blob's
    length and lies within the file. *)
Lemma place_located (blobs : list (list Byte.byte)) (pos : nat)
    (pre post : list Byte.byte) :
  length pre = pos ->
  Forall2 (fun loc b =>
             slice (fst loc) (snd loc)
               (pre ++ snd (fst (place align pos blobs)) ++ post) = b /\
             snd loc = length b /\
             fst loc + snd loc <=
               length (pre ++ snd (fst (place align pos blobs)) ++ post))
    (fst (fst (place align pos blobs))) blobs.
Proof.
  revert pos pre. induction blobs as [|b rest IH]; intros pos pre Hpre.
  - constructor.
  - rewrite place_cons. cbn [fst snd]. constructor.
    + cbn [fst snd]. rewrite <- !(assoc_L (++)).
      split; [apply slice_middle; exact Hpre|].
      split; [reflexivity|]. rewrite !length_app. lia.
    + set (pad := replicate (padding align (pos + length b)) Byte.x00).
      specialize (IH (align_up align (pos + length b)) (pre ++ b ++ pad)).
      rewrite <- !(assoc_L (++)) in IH. rewrite <- !(assoc_L (++)).
      apply IH. rewrite !length_app. unfold pad. rewrite length_replicate.
      unfold align_up. lia.
Qed.

End Layout.

(** *** Records *)

Lemma chunks_fuel_concat (size : nat) (recs : list (list Byte.byte)) (fuel : nat) :
  0 < size -> Forall (fun r => length r = size) recs ->
  length recs <= fuel ->
  chunks_fuel fuel size (concat recs) = recs.
Proof.
  intros Hsize Hrecs. revert fuel.
  induction Hrecs as [|r recs Hr Hrecs IH]; intros fuel Hfuel.
  - destruct fuel; reflexivity.
  - destruct fuel as [|fuel]; [simpl in Hfuel; lia|].
    cbn [chunks_fuel concat].
    destruct r as [|x r]; [simpl in Hr; lia|].
    cbn [app]. rewrite <- Hr.
    change (x :: r ++ concat recs) with ((x :: r) ++ concat recs).
    rewrite take_app_length, drop_app_length.
    f_equal. rewrite Hr. apply IH. simpl in Hfuel. lia.
Qed.

Lemma length_concat_records (size : nat) (recs : list (list Byte.byte)) :
  Forall (fun r => length r = size) recs ->
  length (concat recs) = length recs * size.
Proof.
  induction 1 as [|r recs Hr _ IH]; [reflexivity|].
  cbn [concat length]. rewrite length_app, IH, Hr. lia.
Qed.

Lemma chunks_concat (size : nat) (recs : list (list Byte.byte)) :
  0 < size -> Forall (fun r => length r = size) recs ->
  chunks size (concat recs) = recs.
Proof.
  intros Hsize Hrecs. unfold chunks.
  apply chunks_fuel_concat; [assumption..|].
  rewrite (length_concat_records size recs Hrecs). nia.
Qed.

(** *** Reading back what was written *)

Lemma read_size_at (file pre post : list Byte.byte) (pos n : nat) :
  file = pre ++ le32 (Z.of_nat n) ++ post ->
  length pre = pos -> (Z.of_nat n < 2147483648)%Z ->
  read_size file pos = Ok n.
Proof. intros ->. apply read_size_middle. Qed.

Lemma read_locs_at (locs : list (nat * nat)) (file pre post : list Byte.byte)
    (pos : nat) :
  file = pre ++ concat (map encode_loc locs) ++ post ->
  length pre = pos ->
  Forall (fun loc => (Z.of_nat (fst loc) < 2147483648)%Z /\
                     (Z.of_nat (snd loc) < 2147483648)%Z) locs ->
  read_locs file pos (length locs) = Ok locs.
Proof.
  revert pre pos. induction locs as [|[off len] locs IH]; intros pre pos Hfile Hpre Hb.
  - reflexivity.
  - apply Forall_cons in Hb. destruct Hb as [[Hoff Hlen] Hb]. cbn [fst snd] in *.
    cbn [length read_locs]. cbn [map concat] in Hfile. unfold encode_loc in Hfile at 1.
    cbn [fst snd] in Hfile. rewrite <- !(assoc_L (++)) in Hfile.
    rewrite (read_size_at file pre _ pos off Hfile Hpre Hoff). cbn [mbind result_bind].
    erewrite (read_size_at file (pre ++ le32 (Z.of_nat off)) _ (pos + 4) len).
    + cbn [mbind result_bind].
      rewrite (IH (pre ++ le32 (Z.of_nat off) ++ le32 (Z.of_nat len)) (pos + 8)).
      * reflexivity.
      * rewrite Hfile, <- !(assoc_L (++)). reflexivity.
      * rewrite !length_app, !length_le32. lia.
      * exact Hb.
    + rewrite Hfile, <- !(assoc_L (++)). reflexivity.
    + rewrite length_app, length_le32. lia.
    + exact Hlen.
Qed.

Lemma length_encode_locs (locs : list (nat * nat)) :
  length (concat (map encode_loc locs)) = 8 * length locs.
Proof.
  induction locs as [|loc locs IH]; [reflexivity|].
  cbn [map concat length]. rewrite length_app, IH.
  unfold encode_loc. rewrite length_app, !length_le32. lia.
Qed.

Lemma parse_lumps_written (file : list Byte.byte) (specs : list lumpspec_t)
    (locs : list (nat * nat)) (l : lumps_t) :
  Forall2 (fun s recs => (0 < lump_size s)%N /\
                         Forall (fun r => length r = N.to_nat (lump_size s)) recs)
    specs l ->
  Forall2 (fun loc recs => slice (fst loc) (snd loc) file = concat recs /\
                           snd loc = length (concat recs) /\
                           fst loc + snd loc <= length file) locs l ->
  parse_lumps file specs locs = Ok l.
Proof.
  intros Hspecs. revert locs.
  induction Hspecs as [|s recs specs l [Hsize Hrecs] _ IH]; intros locs Hlocs.
  - apply Forall2_nil_inv_r in Hlocs. subst. reflexivity.
  - apply Forall2_cons_inv_r in Hlocs.
    destruct Hlocs as (loc & locs' & (Hslice & Hlen & Hrange) & Hlocs & ->).
    cbn [parse_lumps]. unfold parse_lump, read_blob.
    destruct (Nat.leb_spec (fst loc + snd loc) (length file)); [|lia].
    cbn [mbind result_bind].
    rewrite Hslice, Hlen, (length_concat_records _ _ Hrecs), Nat.Div0.mod_mul.
    cbn [Nat.eqb mbind result_bind].
    rewrite chunks_concat by (assumption || lia).
    rewrite (IH locs' Hlocs). reflexivity.
Qed.

(** *** Extension names *)

Lemma c_string_before_nul (bs rest : list Byte.byte) :
  Byte.x00 ∉ bs -> c_string (bs ++ Byte.x00 :: rest) = bs.
Proof.
  induction bs as [|b bs IH]; intros Hnul; [reflexivity|].
  cbn [app c_string].
  destruct (Byte.eqb b Byte.x00) eqn:Hb.
  - apply Byte.byte_dec_bl in Hb. subst. exfalso. apply Hnul. left.
  - f_equal. apply IH. intros Hin. apply Hnul. right. exact Hin.
Qed.

Section Names.
Variable name_width : nat.

Lemma length_name_field (name : string) :
  length (name_field name_width name) = name_width.
Proof.
  unfold name_field. rewrite length_take, length_app, length_replicate. lia.
Qed.

Lemma c_string_name_field (name : string) :
  short_name_ok name_width name ->
  string_of_list_byte (c_string (name_field name_width name)) = name.
Proof.
  intros [Hlen Hnul]. unfold name_field.
  rewrite take_app_ge by lia. rewrite take_replicate.
  destruct (Nat.min (name_width - length (list_byte_of_string name)) name_width)
    as [|k] eqn:Hk; [lia|].
  cbn [replicate]. rewrite c_string_before_nul by exact Hnul.
  apply string_of_list_byte_of_string.
Qed.

Lemma read_name_at (file pre post : list Byte.byte) (pos : nat) (name : string) :
  file = pre ++ name_field name_width name ++ post ->
  length pre = pos -> short_name_ok name_width name ->
  read_name name_width file pos = Ok name.
Proof.
  intros -> Hpre Hname. unfold read_name.
  rewrite !length_app, length_name_field.
  destruct (Nat.leb_spec (pos + name_width) (length pre + (name_width + length post)));
    [|lia].
  rewrite <- (length_name_field name) at 1.
  rewrite (slice_middle pre _ post pos Hpre), c_string_name_field by exact Hname.
  reflexivity.
Qed.

Lemma read_entries_at (ents : list (string * list Byte.byte))
    (locs : list (nat * nat)) (file pre post : list Byte.byte) (pos : nat) :
  file = pre ++ concat (zip_with (encode_entry name_width) (map fst ents) locs) ++ post ->
  length pre = pos ->
  (Z.of_nat (length file) < 2147483648)%Z ->
  Forall (fun e => short_name_ok name_width (fst e)) ents ->
  Forall2 (fun loc b => slice (fst loc) (snd loc) file = b /\
                        fst loc + snd loc <= length file) locs (map snd ents) ->
  read_entries name_width file pos (length ents) = Ok ents.
Proof.
  intros Hfile Hpre Hsize Hnames. revert locs pre pos Hfile Hpre.
  induction Hnames as [|[name blob] ents Hname _ IH]; intros locs pre pos Hfile Hpre Hlocs.
  - reflexivity.
  - cbn [map fst snd] in *. apply Forall2_cons_inv_r in Hlocs.
    destruct Hlocs as ([off len] & locs' & (Hslice & Hrange) & Hlocs & ->).
    cbn [fst snd] in *. cbn [zip_with concat] in Hfile.
    unfold encode_entry in Hfile at 1. unfold encode_loc in Hfile at 1.
    cbn [fst snd] in Hfile. rewrite <- !(assoc_L (++)) in Hfile.
    cbn [length read_entries].
    rewrite (read_name_at file pre _ pos name Hfile Hpre Hname).
    cbn [mbind result_bind].
    erewrite (read_size_at file (pre ++ name_field name_width name) _
               (pos + name_width) off);
      [| rewrite Hfile, <- !(assoc_L (++)); reflexivity
       | rewrite length_app, length_name_field; lia | lia].
    cbn [mbind result_bind].
    erewrite (read_size_at file
               (pre ++ name_field name_width name ++ le32 (Z.of_nat off)) _
               (pos + name_width + 4) len);
      [| rewrite Hfile, <- !(assoc_L (++)); reflexivity
       | rewrite !length_app, length_name_field, length_le32; lia | lia].
    cbn [mbind result_bind]. unfold read_blob. cbn [fst snd].
    destruct (Nat.leb_spec (off + len) (length file)); [|lia].
    cbn [mbind result_bind]. rewrite Hslice.
    rewrite (IH locs'
               (pre ++ name_field name_width name ++ le32 (Z.of_nat off) ++
                  le32 (Z.of_nat len)) (pos + name_width + 8)).
    + reflexivity.
    + rewrite Hfile, <- !(assoc_L (++)). reflexivity.
    + rewrite !length_app, length_name_field, !length_le32. lia.
    + exact Hlocs.
Qed.

Lemma length_encode_entries (names : list string) (locs : list (nat * nat)) :
  length names = length locs ->
  length (concat (zip_with (encode_entry name_width) names locs)) =
    length names * (name_width + 8).
Proof.
  revert locs. induction names as [|name names IH]; intros [|loc locs] Hlen;
    try discriminate; [reflexivity|].
  cbn [zip_with concat length]. rewrite length_app, IH by (simpl in Hlen; lia).
  unfold encode_entry, encode_loc.
  rewrite !length_app, length_name_field, !length_le32. lia.
Qed.

End Names.

(** *** Format detection *)

Lemma length_header (F : bspversion_t) : length (header F) = header_len F.
Proof. unfold header, header_len. destruct (version F); reflexivity. Qed.

Lemma read_ident_written (F : bspversion_t) (rest : list Byte.byte) :
  descriptor_ok F -> read32 (header F ++ rest) 0 = Ok (ident F).
Proof.
  intros (Hid & _ & _). unfold header. rewrite <- !(assoc_L (++)).
  apply (read32_middle [] _ 0 (ident F)); [reflexivity | exact Hid].
Qed.

Lemma read_version_written (F : bspversion_t) (v : Z) (rest : list Byte.byte) :
  descriptor_ok F -> version F = Some v ->
  read32 (header F ++ rest) 4 = Ok v.
Proof.
  intros (_ & Hv & _) Hver. unfold header. rewrite Hver, <- !(assoc_L (++)).
  apply read32_middle; [reflexivity | apply Hv; exact Hver].
Qed.

Lemma header_matches_self (F : bspversion_t) (rest : list Byte.byte) :
  descriptor_ok F -> header_matches (header F ++ rest) (ident F) F = true.
Proof.
  intros Hok. unfold header_matches. rewrite Z.eqb_refl. cbn [andb].
  destruct (version F) as [v|] eqn:Hver; [|reflexivity].
  rewrite (read_version_written F v rest Hok Hver). apply Z.eqb_refl.
Qed.

(** A descriptor that matches the header written for [F] is not
    distinct from [F]. *)
Lemma header_matches_not_distinct (F G : bspversion_t) (rest : list Byte.byte) :
  descriptor_ok F ->
  header_matches (header F ++ rest) (ident F) G = true ->
  distinct_headers F G = false /\ distinct_headers G F = false.
Proof.
  intros Hok Hm. unfold header_matches in Hm.
  apply andb_true_iff in Hm. destruct Hm as [Hid Hm].
  apply Z.eqb_eq in Hid. unfold distinct_headers.
  rewrite Hid, Z.eqb_refl. cbn [negb orb].
  destruct (version G) as [w|], (version F) as [v|] eqn:Hver; try (split; reflexivity).
  rewrite (read_version_written F v rest Hok Hver) in Hm.
  apply Z.eqb_eq in Hm. subst. rewrite Z.eqb_refl. split; reflexivity.
Qed.

Lemma filter_registry (reg : list bspversion_t) (F : bspversion_t)
    (rest : list Byte.byte) :
  descriptor_ok F -> registry_unambiguous reg = true -> In F reg ->
  List.filter (header_matches (header F ++ rest) (ident F)) reg = [F].
Proof.
  intros Hok. induction reg as [|G reg IH]; intros Hreg Hin; [destruct Hin|].
  cbn [registry_unambiguous] in Hreg. apply andb_true_iff in Hreg.
  destruct Hreg as [Hhead Htail]. rewrite forallb_forall in Hhead.
  cbn [List.filter].
  destruct (header_matches (header F ++ rest) (ident F) G) eqn:HG.
  - destruct (header_matches_not_distinct F G rest Hok HG) as [_ HGF].
    destruct Hin as [->|Hin].
    + f_equal. clear IH Htail HG HGF.
      induction reg as [|H reg IHr]; [reflexivity|]. cbn [List.filter].
      destruct (header_matches (header F ++ rest) (ident F) H) eqn:HH.
      * destruct (header_matches_not_distinct F H rest Hok HH) as [HFH _].
        rewrite (Hhead H) in HFH by (left; reflexivity). discriminate.
      * apply IHr. intros x Hx. apply Hhead. right. exact Hx.
    + rewrite (Hhead F Hin) in HGF. discriminate.
  - destruct Hin as [->|Hin].
    + rewrite (header_matches_self F rest Hok) in HG. discriminate.
    + apply IH; assumption.
Qed.

Lemma detect_written (reg : list bspversion_t) (F : bspversion_t)
    (rest : list Byte.byte) :
  descriptor_ok F -> registry_unambiguous reg = true -> In F reg ->
  detect reg (header F ++ rest) = Ok F.
Proof.
  intros Hok Hreg Hin. unfold detect.
  rewrite (read_ident_written F rest Hok). cbn [mbind result_bind].
  rewrite (filter_registry reg F rest Hok Hreg Hin). reflexivity.
Qed.

(** *** The extensible lump table section *)

Section Section_.
Variables align name_width : nat.

Lemma bspx_section_nonempty (pos : nat) (ents : list (string * list Byte.byte)) :
  ents <> [] ->
  bspx_section align name_width pos ents =
    le32 (Z.of_nat (length ents)) ++
    concat (zip_with (encode_entry name_width) (map fst ents)
              (fst (fst (place align (pos + 4 + length ents * (name_width + 8))
                           (map snd ents))))) ++
    snd (fst (place align (pos + 4 + length ents * (name_width + 8))
                (map snd ents))).
Proof.
  intros Hne. unfold bspx_section.
  destruct (place align _ (map snd ents)) as [[locs data] e].
  destruct ents; [contradiction | reflexivity].
Qed.

Lemma read_bspx_section (ents : list (string * list Byte.byte))
    (pre : list Byte.byte) (pos : nat) :
  length pre = pos ->
  Forall (fun e => short_name_ok name_width (fst e)) ents ->
  (Z.of_nat (length (pre ++ bspx_section align name_width pos ents)) < 2147483648)%Z ->
  read_bspx name_width (pre ++ bspx_section align name_width pos ents) pos = Ok ents.
Proof.
  intros Hpre Hnames Hsize. unfold read_bspx.
  destruct (decide (ents = [])) as [->|Hne].
  - cbn [bspx_section]. rewrite app_nil_r, Hpre, Nat.ltb_irrefl. reflexivity.
  - rewrite (bspx_section_nonempty pos ents Hne) in *.
    set (base := pos + 4 + length ents * (name_width + 8)) in *.
    set (locs := fst (fst (place align base (map snd ents)))) in *.
    set (data := snd (fst (place align base (map snd ents)))) in *.
    set (table := concat (zip_with (encode_entry name_width) (map fst ents) locs)) in *.
    set (file := pre ++ le32 (Z.of_nat (length ents)) ++ table ++ data) in *.
    assert (Hcount : length (map fst ents) = length locs).
    { unfold locs. rewrite place_count, !length_map. reflexivity. }
    assert (Htable : length table = length ents * (name_width + 8)).
    { unfold table. rewrite (length_encode_entries name_width _ _ Hcount), length_map.
      reflexivity. }
    assert (Hlen : length file = base + length data).
    { unfold file. rewrite !length_app, length_le32, Htable. unfold base. lia. }
    destruct (Nat.ltb_spec pos (length file)); [|unfold base in Hlen; lia].
    rewrite (read_size_at file pre (table ++ data) pos (length ents) eq_refl Hpre)
      by lia.
    cbn [mbind result_bind].
    apply (read_entries_at name_width ents locs file
             (pre ++ le32 (Z.of_nat (length ents))) data (pos + 4)).
    + unfold file. rewrite <- !(assoc_L (++)). reflexivity.
    + rewrite length_app, length_le32. lia.
    + exact Hsize.
    + exact Hnames.
    + pose proof (place_located align (map snd ents) base
                    (pre ++ le32 (Z.of_nat (length ents)) ++ table) []) as Hloc.
      rewrite app_nil_r, <- !(assoc_L (++)) in Hloc.
      eapply Forall2_impl; [apply Hloc|].
      * rewrite !length_app, length_le32, Htable. unfold base. lia.
      * cbn beta. intros loc b (? & _ & ?). split; assumption.
Qed.

End Section_.

(** *** Writing, then loading *)

Lemma populated_populate (fam : family_t) (l : lumps_t) :
  populated (populate fam l) = Some (fam, l).
Proof. destruct fam; reflexivity. Qed.

Lemma family_eqb_refl (fam : family_t) : family_eqb fam fam = true.
Proof. destruct fam; reflexivity. Qed.

Lemma lumps_match_sizes (specs : list lumpspec_t) (l : lumps_t) :
  Forall (fun s => (0 < lump_size s)%N) specs ->
  Forall2 (fun s recs => Forall (fun r => length r = N.to_nat (lump_size s)) recs)
    specs l ->
  Forall2 (fun s recs => (0 < lump_size s)%N /\
                         Forall (fun r => length r = N.to_nat (lump_size s)) recs)
    specs l.
Proof.
  intros Hpos Hm. induction Hm as [|s recs specs l Hrecs _ IH]; [constructor|].
  apply Forall_cons in Hpos. destruct Hpos as [Hs Hpos].
  constructor; [split; assumption | apply IH; exact Hpos].
Qed.

Section Engine.
Variables align name_width : nat.
Variable family : bspversion_t -> family_t.
Variable bspversions : list bspversion_t.

(** The file written for a format, its lumps and its extension table. *)
Lemma write_matching (F : bspversion_t) (doc : document) (l : lumps_t) :
  matchedFormat doc = Some F ->
  structuralVariant doc = populate (family F) l ->
  length l = length (lumps F) ->
  WriteBSPFile align name_width family doc =
    Ok (header F ++
        concat (map encode_loc
                  (fst (fst (place align (header_len F + 8 * length l)
                               (map (fun recs => concat recs) l))))) ++
        snd (fst (place align (header_len F + 8 * length l)
                    (map (fun recs => concat recs) l))) ++
        bspx_section align name_width
          (snd (place align (header_len F + 8 * length l)
                  (map (fun recs => concat recs) l)))
          (map_to_list (extensionLumpTable doc))).
Proof.
  intros Hfmt Hvar Hlen. unfold WriteBSPFile.
  rewrite Hfmt, Hvar, populated_populate, family_eqb_refl, Hlen, Nat.eqb_refl.
  cbn [andb]. rewrite length_map, Hlen.
  destruct (place align _ _) as [[locs data] e]. reflexivity.
Qed.

Lemma load_written (F : bspversion_t) (l : lumps_t)
    (ext : gmap string (list Byte.byte)) :
  registry_unambiguous bspversions = true ->
  In F bspversions ->
  descriptor_ok F ->
  lumps_match F l ->
  (forall (name : string) (blob : list Byte.byte),
     ext !! name = Some blob -> short_name_ok name_width name) ->
  let blobs := map (fun recs => concat recs) l in
  let base := header_len F + 8 * length l in
  let file :=
    header F ++ concat (map encode_loc (fst (fst (place align base blobs)))) ++
    snd (fst (place align base blobs)) ++
    bspx_section align name_width (snd (place align base blobs)) (map_to_list ext) in
  (Z.of_nat (length file) < 2147483648)%Z ->
  LoadBSPFile align name_width family bspversions file =
    Ok (mk_document (Some F) (Some F) (populate (family F) l) ext).
Proof.
  intros Hreg Hin Hok Hl Hnames blobs base file Hsize.
  set (locs := fst (fst (place align base blobs))) in *.
  set (data := snd (fst (place align base blobs))) in *.
  set (e := snd (place align base blobs)) in *.
  set (X := bspx_section align name_width e (map_to_list ext)) in *.
  assert (Hn : length (lumps F) = length locs).
  { unfold locs. rewrite place_count. unfold blobs. rewrite length_map.
    apply (Forall2_length _ _ _ Hl). }
  assert (Hbase : header_len F + 8 * length locs = base).
  { unfold base. rewrite <- Hn, (Forall2_length _ _ _ Hl). reflexivity. }
  assert (He : base + length data = e) by apply place_end.
  assert (Hfile : length file = e + length X).
  { unfold file. rewrite !length_app, length_header, length_encode_locs. lia. }
  unfold LoadBSPFile.
  assert (Hdet : detect bspversions file = Ok F)
    by (unfold file; apply detect_written; assumption).
  rewrite Hdet. cbn [mbind result_bind].
  rewrite Hn, (read_locs_at locs file (header F) (data ++ X) (header_len F) eq_refl
                 (length_header F)).
  2:{ eapply Forall_impl; [apply (place_ranges align blobs base)|].
      cbn beta. fold e. intros loc [_ Hr]. lia. }
  cbn [mbind result_bind].
  rewrite (parse_lumps_written file (lumps F) locs l).
  2:{ apply lumps_match_sizes; [apply Hok | exact Hl]. }
  2:{ pose proof (place_located align blobs base
                    (header F ++ concat (map encode_loc locs)) X) as Hloc.
      rewrite <- !(assoc_L (++)) in Hloc. fold locs data in Hloc. fold file in Hloc.
      unfold blobs in Hloc. apply Forall2_fmap_r in Hloc.
      - eapply Forall2_impl; [exact Hloc|]. cbn beta. intros loc recs H. exact H.
      - rewrite length_app, length_header, length_encode_locs. exact Hbase. }
  cbn [mbind result_bind].
  rewrite Hbase. unfold locs at 1. rewrite end_of_lumps_place. fold e.
  assert (Hsplit : file = (header F ++ concat (map encode_loc locs) ++ data) ++ X).
  { unfold file. rewrite <- !(assoc_L (++)). reflexivity. }
  rewrite Hsplit. unfold X.
  rewrite (read_bspx_section align name_width (map_to_list ext)).
  - cbn [mbind result_bind]. rewrite list_to_map_to_list. reflexivity.
  - rewrite !length_app, length_header, length_encode_locs. lia.
  - apply Forall_forall. intros [name blob] Hin'. cbn [fst].
    apply (Hnames name blob). apply elem_of_map_to_list. exact Hin'.
  - fold X. rewrite <- Hsplit. exact Hsize.
Qed.

(** A load that succeeds leaves one populated alternative, that of the
    resolved format's family. *)
Lemma loaded_document_is_populated (file : list Byte.byte) (d : document) :
  LoadBSPFile align name_width family bspversions file = Ok d ->
  exists (F : bspversion_t) (l : lumps_t),
    matchedFormat d = Some F /\
    structuralVariant d = populate (family F) l /\
    holds_monostate (structuralVariant d) = false.
Proof.
  unfold LoadBSPFile.
  destruct (detect bspversions file) as [F|]; [|discriminate].
  cbn [mbind result_bind].
  destruct (read_locs file _ _) as [locs|]; [|discriminate].
  cbn [mbind result_bind].
  destruct (parse_lumps file _ locs) as [l|]; [|discriminate].
  cbn [mbind result_bind].
  destruct (read_bspx name_width file _) as [ents|]; [|discriminate].
  cbn [mbind result_bind]. intros [= <-]. exists F, l.
  cbn [matchedFormat structuralVariant].
  repeat split. destruct (family F); reflexivity.
Qed.


(** *** Conversion *)

Section Conversion.
Variable compatible : bspversion_t -> bspversion_t -> bool.
Variable widen : bspversion_t -> bspversion_t -> lumps_t -> lumps_t.
Variable remap : bspversion_t -> bspversion_t -> lumps_t -> result lumps_t.

Lemma convert_unreachable (doc : document) (to_version : bspversion_t) :
  reachable_from compatible doc to_version = false ->
  ConvertBSPFormat family compatible widen remap doc to_version = Ok (doc, false).
Proof.
  unfold reachable_from, ConvertBSPFormat, reachable.
  destruct (matchedFormat doc) as [F|]; [|reflexivity].
  destruct (populated (structuralVariant doc)) as [[fam l]|]; [|reflexivity].
  intros Hr. apply orb_false_iff in Hr. destruct Hr as [Hr ->].
  apply orb_false_iff in Hr. destruct Hr as [-> ->]. reflexivity.
Qed.

Lemma convert_returns_reachable (doc d : document) (to_version : bspversion_t)
    (b : bool) :
  ConvertBSPFormat family compatible widen remap doc to_version = Ok (d, b) ->
  b = reachable_from compatible doc to_version.
Proof.
  unfold reachable_from, ConvertBSPFormat, reachable.
  destruct (matchedFormat doc) as [F|]; [|congruence].
  destruct (populated (structuralVariant doc)) as [[fam l]|]; [|congruence].
  destruct (same_format F to_version); [cbn [orb]; congruence|].
  destruct (in_family_upgrade F to_version); [cbn [orb]; congruence|].
  destruct (compatible F to_version); [|cbn [orb]; congruence].
  cbn [orb]. destruct (remap F to_version l); cbn [mbind result_bind]; congruence.
Qed.

(** C6: when the target format is unreachable from the document's
    current format, [ConvertBSPFormat] returns false, without a fault,
    and leaves the document as it was; whenever it returns, the boolean
    tells whether the target was reachable. *)
Theorem convert_returns_false_when_unreachable
    (doc : document) (to_version : bspversion_t) :
  (reachable_from compatible doc to_version = false ->
   ConvertBSPFormat family compatible widen remap doc to_version = Ok (doc, false)) /\
  (forall (d : document) (b : bool),
     ConvertBSPFormat family compatible widen remap doc to_version = Ok (d, b) ->
     b = reachable_from compatible doc to_version).
Proof.
  split; [apply convert_unreachable|].
  intros d b. apply convert_returns_reachable.
Qed.

End Conversion.

End Engine.

Example write_unloaded :
  WriteBSPFile demo_align demo_name_width demo_family
    (mk_document None None monostate ∅) = Fail VariantFormatMismatch.
Proof. reflexivity. Qed.

Example write_wrong_family :
  WriteBSPFile demo_align demo_name_width demo_family
    (mk_document (Some demo_q2) (Some demo_q2) (holds_bsp29 demo_lumps) ∅) =
  Fail VariantFormatMismatch.
Proof. reflexivity. Qed.

Example load_unknown_header :
  LoadBSPFile demo_align demo_name_width demo_family demo_registry
    (le32 77 ++ le32 0) = Fail FormatUnrecognized.
Proof. vm_compute. reflexivity. Qed.

Example load_truncated :
  LoadBSPFile demo_align demo_name_width demo_family demo_registry
    (le32 29 ++ le32 20 ++ le32 400 ++ le32 420 ++ le32 0) = Fail TruncatedFile.
Proof. vm_compute. reflexivity. Qed.

Example load_partial_record :
  LoadBSPFile demo_align demo_name_width demo_family demo_registry
    (le32 29 ++ le32 20 ++ le32 0 ++ le32 20 ++ le32 3 ++ le32 0) =
  Fail LumpSizeMismatch.
Proof. vm_compute. reflexivity. Qed.

Example convert_upgrade :
  ConvertBSPFormat demo_family no_pairs keep_lumps remap_lumps demo_doc_q1 demo_bsp2 =
  Ok (mk_document (Some demo_bsp2) (Some demo_q1) (holds_bsp2 demo_lumps) ∅, true).
Proof. vm_compute. reflexivity. Qed.

Lemma demo_names_short (name : string) (blob : list Byte.byte) :
  demo_table !! name = Some blob -> short_name_ok demo_name_width name.
Proof.
  unfold demo_table. intros H.
  rewrite lookup_insert in H. destruct (decide ("RGBLIGHTING"%string = name)) as [<-|_].
  - split; [vm_compute; lia|]. intros Hin. apply list_elem_of_In in Hin.
    vm_compute in Hin. intuition discriminate.
  - rewrite lookup_insert in H. destruct (decide ("LMSHIFT"%string = name)) as [<-|_].
    + split; [vm_compute; lia|]. intros Hin. apply list_elem_of_In in Hin.
      vm_compute in Hin. intuition discriminate.
    + rewrite lookup_empty in H. discriminate.
Qed.

Lemma demo_q2_ok : descriptor_ok demo_q2.
Proof.
  split; [unfold int32; vm_compute; split; [discriminate|reflexivity]|].
  split.
  - intros v [= <-]. unfold int32. lia.
  - repeat constructor.
Qed.


Lemma convert_returns_false_when_unreachable_witness :
  reachable_from no_pairs demo_doc demo_q1 = false /\
  ConvertBSPFormat demo_family no_pairs keep_lumps remap_lumps demo_doc demo_q1 =
    Ok (demo_doc, false).
Proof.
  split; [vm_compute; reflexivity|].
  apply (convert_returns_false_when_unreachable demo_family no_pairs keep_lumps
           remap_lumps demo_doc demo_q1).
  vm_compute. reflexivity.
Defined.

(** *** Where the round trip stops *)

(** A 32-bit field read back is the value written, wrapped to 32 bits. *)
Lemma read32_wraps (pre post : list Byte.byte) (pos : nat) (z : Z) :
  length pre = pos ->
  read32 (pre ++ le32 z ++ post) pos = Ok (signed32 (z mod 4294967296)).
Proof.
  intros Hpos. unfold read32.
  rewrite <- (length_le32 z), (slice_middle pre (le32 z) post pos Hpos).
  unfold le32. rewrite !Z_of_byte_of_Z, le32_bytes_value. reflexivity.
Qed.

(** A length of 2^31 bytes or more is read back as a negative one. *)
Lemma read_size_out_of_reach (file pre post : list Byte.byte) (pos : nat) (z : Z) :
  file = pre ++ le32 z ++ post -> length pre = pos ->
  (2147483648 <= z < 4294967296)%Z ->
  read_size file pos = Fail TruncatedFile.
Proof.
  intros -> Hpos Hz. unfold read_size. rewrite (read32_wraps pre post pos z Hpos).
  cbn [mbind result_bind]. rewrite Z.mod_small by lia. unfold signed32.
  destruct (Z.ltb_spec z 2147483648); [lia|].
  destruct (Z.ltb_spec (z - 4294967296) 0); [reflexivity | lia].
Qed.

Lemma demo_registry_ok :
  registry_unambiguous demo_registry = true /\ In demo_q2 demo_registry.
Proof. split; [vm_compute; reflexivity | right; right; left; reflexivity]. Qed.

Lemma oversize_matches (n : nat) :
  matches_format demo_family demo_q2 (oversize_doc n).
Proof.
  split; [reflexivity|]. exists [replicate n [Byte.x00]; []].
  split; [reflexivity|]. unfold lumps_match.
  constructor; [apply Forall_replicate; reflexivity|].
  constructor; [constructor | constructor].
Qed.

(** A document whose first lump has 2^31 bytes is written, and the
    written file does not load: the lump's length no longer fits its
    32-bit field. *)
Lemma oversize_load_fails (n : nat) :
  Z.of_nat n = 2147483648%Z ->
  exists bytes : list Byte.byte,
    WriteBSPFile demo_align demo_name_width demo_family (oversize_doc n) = Ok bytes /\
    LoadBSPFile demo_align demo_name_width demo_family demo_registry bytes =
      Fail TruncatedFile.
Proof.
  intros Hn.
  pose proof (write_matching demo_align demo_name_width demo_family demo_q2
                (oversize_doc n) [replicate n [Byte.x00]; []]
                eq_refl eq_refl eq_refl) as Hw.
  eexists. split; [exact Hw|].
  match goal with |- LoadBSPFile _ _ _ _ ?f = _ => remember f as file eqn:Hfile end.
  cbn [map] in Hfile. rewrite place_cons in Hfile. cbn [fst snd map concat] in Hfile.
  unfold encode_loc in Hfile at 1. cbn [fst snd] in Hfile.
  rewrite (length_concat_records 1) in Hfile by (apply Forall_replicate; reflexivity).
  rewrite length_replicate, Nat.mul_1_r in Hfile.
  rewrite <- !(assoc_L (++)) in Hfile.
  unfold LoadBSPFile.
  assert (Hdet : detect demo_registry file = Ok demo_q2).
  { rewrite Hfile. apply detect_written;
      [exact demo_q2_ok | apply demo_registry_ok | apply demo_registry_ok]. }
  rewrite Hdet. cbn [mbind result_bind].
  change (length (lumps demo_q2)) with 2.
  change (header_len demo_q2) with 8.
  cbn [read_locs].
  erewrite (read_size_at file (header demo_q2) _ 8 _ Hfile);
    [| reflexivity | cbn; lia].
  cbn [mbind result_bind].
  erewrite (read_size_out_of_reach file (header demo_q2 ++ le32 _) _ (8 + 4) (Z.of_nat n));
    [reflexivity
    | rewrite Hfile, <- !(assoc_L (++)); reflexivity
    | rewrite length_app; reflexivity
    | lia].
Qed.


End ContainerFacts.

(** ** Array conversion *)

Module ArrayCastFacts.
Import ArrayCast.

Local Open Scope nat_scope.

Section ArrayCast.
Context {Src Dst : Type}.
Variable dest_size : nat.
Variable zero : Dst.
Variable cast : Src -> string -> outcome Dst.

Lemma cast_all_returned (l : list Src) (msg : string) (ds : list Dst) :
  cast_all cast l msg = Returned ds <->
  Forall2 (fun x d => cast x msg = Returned d) l ds.
Proof.
  revert ds. induction l as [|x l IH]; intros ds; cbn [cast_all].
  - split; [intros [= <-]; constructor | intros H; inversion H; reflexivity].
  - destruct (cast x msg) as [d|m] eqn:Hx.
    + destruct (cast_all cast l msg) as [ds'|m] eqn:Hl.
      * split.
        -- intros [= <-]. constructor; [exact Hx | apply IH; reflexivity].
        -- intros H. inversion H as [|? d' ? ds'' Hd Hds]; subst.
           rewrite Hx in Hd. injection Hd as <-.
           apply IH in Hds. injection Hds as <-. reflexivity.
      * split; [discriminate|].
        intros H. inversion H as [|? d' ? ds'' Hd Hds]; subst.
        apply IH in Hds. discriminate.
    + split; [discriminate|].
      intros H. inversion H as [|? d' ? ds'' Hd Hds]; subst. congruence.
Qed.

Lemma first_overflow_tail (x : Src) (l : list Src) (msg m : string) (d : Dst) :
  cast x msg = Returned d ->
  first_overflow cast (x :: l) msg m <-> first_overflow cast l msg m.
Proof.
  intros Hx. split.
  - intros ([|i] & y & Hi & Hy & Hbefore).
    + cbn in Hi. injection Hi as <-. congruence.
    + exists i, y. split; [exact Hi|]. split; [exact Hy|].
      intros j z Hj Hz. apply (Hbefore (S j) z); [lia | exact Hz].
  - intros (i & y & Hi & Hy & Hbefore).
    exists (S i), y. split; [exact Hi|]. split; [exact Hy|].
    intros [|j] z Hj Hz.
    + cbn in Hz. injection Hz as <-. exists d. exact Hx.
    + apply (Hbefore j z); [lia | exact Hz].
Qed.

Lemma first_overflow_head (x : Src) (l : list Src) (msg m m' : string) :
  cast x msg = Overflow m' ->
  first_overflow cast (x :: l) msg m <-> m' = m.
Proof.
  intros Hx. split.
  - intros ([|i] & y & Hi & Hy & Hbefore).
    + cbn in Hi. injection Hi as <-. congruence.
    + destruct (Hbefore 0 x) as [d Hd]; [lia | reflexivity | congruence].
  - intros <-. exists 0, x. split; [reflexivity|]. split; [exact Hx|].
    intros j y Hj. lia.
Qed.

Lemma cast_all_overflow (l : list Src) (msg m : string) :
  cast_all cast l msg = Overflow m <-> first_overflow cast l msg m.
Proof.
  induction l as [|x l IH]; cbn [cast_all].
  - split; [discriminate|].
    intros (i & y & Hi & _). rewrite lookup_nil in Hi. discriminate.
  - destruct (cast x msg) as [d|m'] eqn:Hx.
    + rewrite (first_overflow_tail x l msg m d Hx), <- IH.
      destruct (cast_all cast l msg); split; congruence.
    + rewrite (first_overflow_head x l msg m m' Hx). split; congruence.
Qed.

(** The loop, from any point of its run: the values converted so far
    stay, the next [count] are converted, the rest of the destination is
    as it was. *)
Lemma array_cast_loop_closed (src : list Src) (msg : string)
    (count i : nat) (dest : list Dst) :
  i + count <= length src -> i + count <= length dest ->
  array_cast_loop cast src msg i count dest =
    match cast_all cast (take count (drop i src)) msg with
    | Returned ds => Returned (take i dest ++ ds ++ drop (i + count) dest)
    | Overflow m => Overflow m
    end.
Proof.
  revert i dest. induction count as [|count IH]; intros i dest Hsrc Hdest.
  - cbn [array_cast_loop]. rewrite take_0. cbn [cast_all app].
    rewrite Nat.add_0_r, take_drop. reflexivity.
  - cbn [array_cast_loop].
    destruct (lookup_lt_is_Some_2 src i) as [x Hx]; [lia|].
    rewrite Hx, (drop_S _ _ _ Hx), firstn_cons. cbn [cast_all].
    destruct (cast x msg) as [d|m]; [|reflexivity].
    rewrite IH by (rewrite ?length_insert; lia).
    destruct (cast_all cast (take count (drop (S i) src)) msg) as [ds|m];
      [|reflexivity].
    rewrite (take_S_r (<[i:=d]> dest) i d) by (apply list_lookup_insert_eq; lia).
    rewrite take_insert_ge by lia.
    rewrite drop_insert_lt by lia.
    rewrite <- (assoc_L (++)). cbn [app].
    replace (S i + count) with (i + S count) by lia. reflexivity.
Qed.

Lemma take_min_length (l : list Src) (n : nat) :
  take (Nat.min n (length l)) l = take n l.
Proof.
  destruct (Nat.le_ge_cases n (length l)).
  - rewrite Nat.min_l by assumption. reflexivity.
  - rewrite Nat.min_r by assumption. rewrite !take_ge by lia. reflexivity.
Qed.

(** [array_cast] converts the first [dest_size] values of the source and
    fills what is left of the destination with zeros. *)
Lemma array_cast_closed (src : list Src) (msg : string) :
  array_cast dest_size zero cast src msg =
    match cast_all cast (take dest_size src) msg with
    | Returned ds => Returned (ds ++ replicate (dest_size - length src) zero)
    | Overflow m => Overflow m
    end.
Proof.
  unfold array_cast.
  rewrite array_cast_loop_closed by (rewrite ?length_replicate; lia).
  rewrite drop_0, take_min_length, take_0. cbn [app Nat.add].
  rewrite drop_replicate.
  replace (dest_size - Nat.min dest_size (length src))
    with (dest_size - length src) by lia.
  reflexivity.
Qed.

(** X1: when [array_cast] returns, the destination has its own size, each
    position that the source also has holds the conversion of the
    source's value there, and each position past the source's end holds
    the value-initialised element. *)
Theorem array_cast_returned (src : list Src) (msg : string) (dest : list Dst) :
  array_cast dest_size zero cast src msg = Returned dest ->
  length dest = dest_size /\
  (forall (i : nat) (x : Src), i < dest_size -> src !! i = Some x ->
     exists d : Dst, cast x msg = Returned d /\ dest !! i = Some d) /\
  (forall i : nat, length src <= i -> i < dest_size -> dest !! i = Some zero).
Proof.
  rewrite array_cast_closed.
  destruct (cast_all cast (take dest_size src) msg) as [ds|m] eqn:Hds;
    [|discriminate].
  intros [= <-]. apply cast_all_returned in Hds.
  pose proof (Forall2_length _ _ _ Hds) as Hlen. rewrite length_take in Hlen.
  split; [rewrite length_app, length_replicate; lia|].
  split.
  - intros i x Hi Hx.
    assert (Hix : take dest_size src !! i = Some x)
      by (rewrite lookup_take_lt by exact Hi; exact Hx).
    destruct (Forall2_lookup_l _ _ _ _ _ Hds Hix) as (d & Hd & Hcast).
    exists d. split; [exact Hcast|].
    rewrite lookup_app_l by (apply lookup_lt_Some in Hd; exact Hd). exact Hd.
  - intros i Hge Hlt.
    rewrite lookup_app_r by lia. apply lookup_replicate_2. lia.
Qed.

(** X2: [array_cast] throws exactly when one of the source values that
    has a place in the destination does not convert; the error is that
    of the first such value, with the message [array_cast] was given
    passed on to the conversion. *)
Theorem array_cast_overflows (src : list Src) (msg m : string) :
  array_cast dest_size zero cast src msg = Overflow m <->
  exists (i : nat) (x : Src),
    i < dest_size /\ src !! i = Some x /\ cast x msg = Overflow m /\
    forall (j : nat) (y : Src), j < i -> src !! j = Some y ->
      exists d : Dst, cast y msg = Returned d.
Proof.
  rewrite array_cast_closed.
  transitivity (cast_all cast (take dest_size src) msg = Overflow m).
  { destruct (cast_all cast (take dest_size src) msg); split; congruence. }
  rewrite cast_all_overflow. unfold first_overflow. split.
  - intros (i & x & Hi & Hx & Hbefore).
    apply lookup_take_Some in Hi. destruct Hi as [Hi Hlt].
    exists i, x. repeat split; try assumption.
    intros j y Hj Hy. apply (Hbefore j y Hj).
    rewrite lookup_take_lt by lia. exact Hy.
  - intros (i & x & Hlt & Hi & Hx & Hbefore).
    exists i, x. split; [apply lookup_take_Some; split; assumption|].
    split; [exact Hx|].
    intros j y Hj Hy. apply lookup_take_Some in Hy. destruct Hy as [Hy _].
    apply (Hbefore j y Hj Hy).
Qed.

(** X3: source values past the destination's size are dropped without
    being converted: appending anything to a source that already fills
    the destination changes nothing, not even when the appended values
    are out of range. *)
Theorem array_cast_ignores_excess (src extra : list Src) (msg : string) :
  dest_size <= length src ->
  array_cast dest_size zero cast (src ++ extra) msg =
  array_cast dest_size zero cast src msg.
Proof.
  intros Hlen. rewrite !array_cast_closed, take_app_le by exact Hlen.
  rewrite length_app.
  replace (dest_size - (length src + length extra)) with (dest_size - length src)
    by lia.
  reflexivity.
Qed.

End ArrayCast.

Section RoundTrip.
Context {A B : Type}.
Variables (zero_a : A) (zero_b : B).
Variable up : A -> string -> outcome B.
Variable down : B -> string -> outcome A.

Lemma cast_all_there_and_back (l : list A) (msg msg' : string) :
  (forall x : A, x ∈ l ->
     exists b : B, up x msg = Returned b /\ down b msg' = Returned x) ->
  exists bs : list B,
    cast_all up l msg = Returned bs /\ cast_all down bs msg' = Returned l.
Proof.
  induction l as [|x l IH]; intros Hback.
  - exists []. split; reflexivity.
  - destruct (Hback x) as (b & Hup & Hdown); [left|].
    destruct IH as (bs & Hups & Hdowns).
    { intros y Hy. apply Hback. right. exact Hy. }
    exists (b :: bs). cbn [cast_all]. rewrite Hup, Hups, Hdown, Hdowns.
    split; reflexivity.
Qed.

(** X4: widening an array and trimming it back is the identity: when
    each value converts into the wider element type and back, converting
    an array to a longer one and the result to the original length
    returns the original array. *)
Theorem array_cast_widen_then_trim (src : list A) (wide : nat) (msg msg' : string) :
  length src <= wide ->
  (forall x : A, x ∈ src ->
     exists b : B, up x msg = Returned b /\ down b msg' = Returned x) ->
  exists mid : list B,
    array_cast wide zero_b up src msg = Returned mid /\
    length mid = wide /\
    array_cast (length src) zero_a down mid msg' = Returned src.
Proof.
  intros Hlen Hback.
  destruct (cast_all_there_and_back src msg msg' Hback) as (bs & Hups & Hdowns).
  assert (Hbs : length bs = length src).
  { apply cast_all_returned in Hups. symmetry. apply (Forall2_length _ _ _ Hups). }
  exists (bs ++ replicate (wide - length src) zero_b).
  split; [|split].
  - rewrite array_cast_closed, take_ge by exact Hlen. rewrite Hups. reflexivity.
  - rewrite length_app, length_replicate. lia.
  - rewrite array_cast_closed, <- Hbs, take_app_length, Hdowns.
    rewrite length_app, length_replicate.
    replace (length bs - (length bs + (wide - length bs))) with 0 by lia.
    cbn [replicate]. rewrite app_nil_r. reflexivity.
Qed.

End RoundTrip.

Lemma array_cast_returned_witness :
  exists dest : list Z,
    array_cast 4 0%Z to_int16 [7; -3]%Z "src" = Returned dest /\
    length dest = 4 /\ dest !! 1 = Some (-3)%Z /\ dest !! 3 = Some 0%Z.
Proof.
  exists [7; -3; 0; 0]%Z.
  assert (H : array_cast 4 0%Z to_int16 [7; -3]%Z "src" = Returned [7; -3; 0; 0]%Z)
    by reflexivity.
  destruct (array_cast_returned 4 0%Z to_int16 [7; -3]%Z "src" _ H)
    as (Hlen & Hconv & Hzero).
  split; [exact H|]. split; [exact Hlen|].
  split; [reflexivity|]. apply Hzero; simpl; lia.
Defined.

Lemma array_cast_ignores_excess_witness :
  array_cast 2 0%Z to_int16 ([1; 2] ++ [100000])%Z "src" = Returned [1; 2]%Z.
Proof.
  rewrite (array_cast_ignores_excess 2 0%Z to_int16 [1; 2]%Z [100000]%Z "src")
    by (simpl; lia).
  reflexivity.
Defined.

Lemma array_cast_widen_then_trim_witness :
  exists mid : list Z,
    array_cast 4 0%Z to_int32 [7; -3]%Z "src" = Returned mid /\
    length mid = 4 /\
    array_cast 2 0%Z to_int16 mid "src" = Returned [7; -3]%Z.
Proof.
  apply (array_cast_widen_then_trim 0%Z 0%Z to_int32 to_int16 [7; -3]%Z 4 "src" "src").
  - simpl. lia.
  - intros x Hx. exists x.
    apply elem_of_cons in Hx. destruct Hx as [->|Hx]; [split; reflexivity|].
    apply elem_of_cons in Hx. destruct Hx as [->|Hx]; [split; reflexivity|].
    apply elem_of_nil in Hx. destruct Hx.
Defined.

Lemma array_cast_overflows_witness :
  array_cast 3 0%Z to_int16 [1; 40000; 50000]%Z "mins" = Overflow "mins".
Proof.
  apply (array_cast_overflows 3 0%Z to_int16 [1; 40000; 50000]%Z "mins" "mins").
  exists 1%nat, 40000%Z. split; [lia|]. split; [reflexivity|]. split; [reflexivity|].
  intros j y Hj Hy. assert (j = 0%nat) as -> by lia.
  injection Hy as <-. exists 1%Z. reflexivity.
Defined.

Example array_cast_overflow_message :
  array_cast 2 0%Z to_int16 [70000; 1; 2]%Z "maxs" = Overflow "maxs".
Proof. reflexivity. Qed.

End ArrayCastFacts.

(** ** The order of surface flags as a sort key *)

Module OrderingFacts.
Import Scalars Rel RelFacts Surfflags SurfflagsFacts Ordering.

Local Open Scope Z_scope.

(** *** Keys of the field types *)

Lemma vec_lt_key (x y : vec_t) :
  is_nan x = false -> is_nan y = false ->
  (vec_lt x y = true <-> key_lt (vec_key x) (vec_key y)).
Proof.
  intros Hx Hy. unfold vec_lt, SFltb, key_lt.
  destruct x as [sx|sx| |sx mx ex]; try discriminate;
  destruct y as [sy|sy| |sy my ey]; try discriminate;
  cbn [SFcompare vec_key];
  try (destruct sx; cbn [fst snd]; split; intros; (lia || discriminate || reflexivity));
  try (destruct sy; cbn [fst snd]; split; intros; (lia || discriminate || reflexivity));
  try (destruct sx, sy; cbn [fst snd]; split; intros;
       (lia || discriminate || reflexivity)).
  rewrite Pos.compare_cont_spec. cbn [Pos.switch_Eq].
  destruct sx, sy; cbn [fst snd];
    destruct (Z.compare_spec ex ey); destruct (Pos.compare_spec mx my);
    cbn [CompOpp Pos.switch_Eq]; split; intros; (lia || discriminate || reflexivity).
Qed.

Lemma vec_eq_key (x y : vec_t) :
  is_nan x = false -> is_nan y = false ->
  (vec_eq x y = true <-> key_eq (vec_key x) (vec_key y)).
Proof.
  intros Hx Hy. unfold vec_eq, SFeqb, key_eq.
  destruct x as [sx|sx| |sx mx ex]; try discriminate;
  destruct y as [sy|sy| |sy my ey]; try discriminate;
  cbn [SFcompare vec_key];
  try (destruct sx; cbn [fst snd]; split; intros; (lia || discriminate || reflexivity));
  try (destruct sy; cbn [fst snd]; split; intros; (lia || discriminate || reflexivity));
  try (destruct sx, sy; cbn [fst snd]; split; intros;
       (lia || discriminate || reflexivity)).
  rewrite Pos.compare_cont_spec. cbn [Pos.switch_Eq].
  destruct sx, sy; cbn [fst snd];
    destruct (Z.compare_spec ex ey); destruct (Pos.compare_spec mx my);
    cbn [CompOpp Pos.switch_Eq]; split; intros; (lia || discriminate || reflexivity).
Qed.

Lemma qvec3b_lt_key (u v : qvec3b) :
  qvec3b_lt u v = true <-> key_lt (qvec3b_key u) (qvec3b_key v).
Proof.
  unfold qvec3b_lt, key_lt, qvec3b_key. cbn [fst snd].
  rewrite !orb_true_iff, !andb_true_iff, !negb_true_iff, !Z.ltb_lt, !Z.ltb_ge. lia.
Qed.

Lemma qvec3b_eq_key (u v : qvec3b) :
  qvec3b_eq u v = true <-> key_eq (qvec3b_key u) (qvec3b_key v).
Proof.
  unfold qvec3b_eq, key_eq, qvec3b_key. cbn [fst snd].
  rewrite !andb_true_iff, !Z.eqb_eq. tauto.
Qed.

(** A field type whose comparisons are those of a key is ordered as the
    keys are. *)
Lemma keyed_field_order {A : Type} `{Less A, Equal A, Ordered A}
    (key : A -> Z * Z * Z) :
  (forall x y : A, ordered x -> ordered y ->
     (less x y = true <-> key_lt (key x) (key y))) ->
  (forall x y : A, ordered x -> ordered y ->
     (equal x y = true <-> key_eq (key x) (key y))) ->
  FieldOrder A.
Proof.
  intros Hlt Heq. split.
  - intros x y Hx Hy.
    pose proof (Hlt x y Hx Hy) as Hxy. pose proof (Hlt y x Hy Hx) as Hyx.
    pose proof (Heq x y Hx Hy) as Hq.
    unfold exactly_one, key_lt, key_eq in *.
    destruct (less x y), (less y x), (equal x y); try tauto; exfalso; lia.
  - intros x y z Hx Hy Hz. rewrite (Hlt x y), (Hlt y z), (Hlt x z) by assumption.
    unfold key_lt. lia.
  - intros x y z Hx Hy Hz. rewrite (Heq x y), (Heq y z), (Heq x z) by assumption.
    unfold key_eq. lia.
  - intros x y z Hx Hy Hz. rewrite (Heq x y), (Hlt y z), (Hlt x z) by assumption.
    unfold key_lt, key_eq. lia.
  - intros x y z Hx Hy Hz. rewrite (Hlt x y), (Heq y z), (Hlt x z) by assumption.
    unfold key_lt, key_eq. lia.
Qed.

#[export] Instance field_order_int32 : FieldOrder Z.
Proof.
  apply (keyed_field_order int32_key); intros x y _ _;
    unfold less, equal, less_int32, equal_int32, key_lt, key_eq, int32_key;
    cbn [fst snd]; rewrite ?Z.ltb_lt, ?Z.eqb_eq; lia.
Qed.

#[export] Instance field_order_bool : FieldOrder bool.
Proof.
  apply (keyed_field_order bool_key); intros [] [] _ _;
    unfold key_lt, key_eq, bool_key; cbn; split; intros; (lia || discriminate || reflexivity).
Qed.

#[export] Instance field_order_vec : FieldOrder vec_t.
Proof.
  apply (keyed_field_order vec_key); intros x y Hx Hy;
    [apply vec_lt_key | apply vec_eq_key]; assumption.
Qed.

#[export] Instance field_order_qvec3b : FieldOrder qvec3b.
Proof.
  apply (keyed_field_order qvec3b_key); intros x y _ _;
    [apply qvec3b_lt_key | apply qvec3b_eq_key].
Qed.

(** *** Tuples *)

(** On ordered values [a < b] on tuples means: the heads are in order,
    or they are equal and the tails are in order. *)
Lemma tuple_less_cases {A B : Type}
    `{Less A, Equal A, Ordered A, Less B} `{!FieldOrder A}
    (x y : A) (xs ys : B) :
  ordered x -> ordered y ->
  (less (x, xs) (y, ys) = true <->
   less x y = true \/ (equal x y = true /\ less xs ys = true)).
Proof.
  intros Hx Hy. pose proof (field_trichotomy x y Hx Hy) as Ht.
  unfold less at 1, less_tuple. cbn [fst snd]. unfold exactly_one in Ht.
  destruct Ht as [(-> & -> & ->)|[(-> & -> & ->)|(-> & -> & ->)]]; cbn [orb andb negb].
  - split; [intros _; left; reflexivity | reflexivity].
  - split; [discriminate | intros [?|[? _]]; discriminate].
  - split; [intros ?; right; split; [reflexivity | assumption] |].
    intros [?|[_ ?]]; [discriminate | assumption].
Qed.

#[export] Instance transitive_less_unit : TransitiveLess unit.
Proof. intros [] [] [] _ _ _ H. discriminate H. Qed.

#[export] Instance transitive_less_tuple {A B : Type}
  `{Less A, Equal A, Ordered A, Less B, Ordered B}
  `{!FieldOrder A, !TransitiveLess B} : TransitiveLess (A * B).
Proof.
  intros [x xs] [y ys] [z zs] [Hx Hxs] [Hy Hys] [Hz Hzs]; cbn [fst snd] in *.
  rewrite !tuple_less_cases by assumption.
  intros [Hxy|[Exy Hxys]] [Hyz|[Eyz Hyzs]].
  - left. apply (field_lt_trans x y z); assumption.
  - left. apply (field_lt_eq x y z); assumption.
  - left. apply (field_eq_lt x y z); assumption.
  - right. split; [apply (field_eq_trans x y z); assumption|].
    apply (less_trans xs ys zs); assumption.
Qed.

#[export] Instance transitive_equal_unit : TransitiveEqual unit.
Proof. intros [] [] [] _ _ _ _ _. reflexivity. Qed.

#[export] Instance transitive_equal_tuple {A B : Type}
  `{Less A, Equal A, Ordered A, Equal B, Ordered B}
  `{!FieldOrder A, !TransitiveEqual B} : TransitiveEqual (A * B).
Proof.
  intros [x xs] [y ys] [z zs] [Hx Hxs] [Hy Hys] [Hz Hzs]; cbn [fst snd] in *.
  unfold equal, equal_tuple. cbn [fst snd]. rewrite !andb_true_iff.
  intros [Exy Exys] [Eyz Eyzs]. split.
  - apply (field_eq_trans x y z); assumption.
  - apply (equal_trans xs ys zs); assumption.
Qed.

#[export] Instance asymmetric_less_int32 : AsymmetricLess Z.
Proof.
  intros x y. unfold less, less_int32. rewrite Z.ltb_lt, Z.ltb_ge. lia.
Qed.

#[export] Instance asymmetric_less_bool : AsymmetricLess bool.
Proof. intros [] []; unfold less, less_bool; cbn; congruence. Qed.

(** Also with a NaN: it is less than nothing and nothing is less than it. *)
#[export] Instance asymmetric_less_vec : AsymmetricLess vec_t.
Proof.
  intros x y. unfold less, less_vec, vec_lt, SFltb.
  destruct (is_nan x) eqn:Hx; [destruct x; try discriminate; reflexivity|].
  destruct (is_nan y) eqn:Hy;
    [destruct y; try discriminate; destruct x; intros; discriminate|].
  destruct (SFcompare_swap x y Hx Hy) as (c & -> & ->).
  destruct c; cbn; congruence.
Qed.

#[export] Instance asymmetric_less_qvec3b : AsymmetricLess qvec3b.
Proof.
  intros u v Huv. apply qvec3b_lt_key in Huv.
  destruct (less v u) eqn:Hvu; [|reflexivity].
  apply qvec3b_lt_key in Hvu. unfold key_lt in *. lia.
Qed.

#[export] Instance asymmetric_less_unit : AsymmetricLess unit.
Proof. intros [] [] H. discriminate H. Qed.

#[export] Instance asymmetric_less_tuple {A B : Type} `{Less A, Less B}
  `{!AsymmetricLess A, !AsymmetricLess B} : AsymmetricLess (A * B).
Proof.
  intros [x xs] [y ys]. unfold less, less_tuple. cbn [fst snd].
  destruct (less x y) eqn:Hxy.
  - rewrite (less_asym x y Hxy). reflexivity.
  - destruct (less y x) eqn:Hyx; [discriminate|]. cbn [orb negb andb].
    intros Hs. apply (less_asym xs ys Hs).
Qed.

(** *** The order of surface flags *)

(** X5: [operator<] never holds both ways and never holds between a
    value and itself, whatever the fields are, NaN included. *)
Theorem operator_lt_asymmetric (a b : surfflags_t) :
  (operator_lt a b = true -> operator_lt b a = false) /\
  operator_lt a a = false.
Proof.
  split.
  - apply (less_asym (as_tuple a) (as_tuple b)).
  - destruct (operator_lt a a) eqn:Haa; [|reflexivity].
    assert (Hno : operator_lt a a = false)
      by exact (less_asym (as_tuple a) (as_tuple a) Haa).
    congruence.
Qed.

Lemma equivalent_all_fields_equal (a b : surfflags_t) :
  nan_free a -> nan_free b -> equivalent a b = all_fields_equal a b.
Proof.
  intros Ha Hb. pose proof (operator_lt_trichotomy a b Ha Hb) as Ht.
  unfold equivalent, exactly_one in *.
  destruct Ht as [(-> & -> & ->)|[(-> & -> & ->)|(-> & -> & ->)]]; reflexivity.
Qed.

(** X6: on values without NaN [operator<] is a strict weak ordering, as
    sorting and ordered containers require: it is transitive, and so is
    the equivalence of two values neither of which is less than the
    other. *)
Theorem operator_lt_strict_weak_ordering (a b c : surfflags_t) :
  nan_free a -> nan_free b -> nan_free c ->
  (operator_lt a b = true -> operator_lt b c = true -> operator_lt a c = true) /\
  (equivalent a b = true -> equivalent b c = true -> equivalent a c = true).
Proof.
  intros Ha Hb Hc. split.
  - apply (less_trans (as_tuple a) (as_tuple b) (as_tuple c)); assumption.
  - rewrite !equivalent_all_fields_equal by assumption.
    apply (equal_trans (as_tuple a) (as_tuple b) (as_tuple c)); assumption.
Qed.

Lemma vec_eq_to_bool (x y : vec_t) :
  vec_eq x y = true -> vec_to_bool x = vec_to_bool y.
Proof.
  unfold vec_eq, SFeqb.
  destruct x as [sx|sx| |sx mx ex], y as [sy|sy| |sy my ey];
    cbn [SFcompare vec_to_bool]; try reflexivity; try discriminate;
    try (destruct sx; discriminate); try (destruct sy; discriminate).
Qed.

Lemma qvec3b_eq_emptyExact (u v : qvec3b) :
  qvec3b_eq u v = true -> emptyExact u = emptyExact v.
Proof.
  unfold qvec3b_eq, emptyExact. rewrite !andb_true_iff, !Z.eqb_eq.
  intros [[-> ->] ->]. reflexivity.
Qed.

Lemma all_fields_equal_needs_write (a b : surfflags_t) :
  all_fields_equal a b = true -> needs_write a = needs_write b.
Proof.
  unfold all_fields_equal, as_tuple, needs_write.
  repeat (first [progress unfold equal | progress unfold equal_tuple]; cbn [fst snd]).
  rewrite !andb_true_iff.
  unfold equal_int32, equal_bool, equal_vec, equal_qvec3b.
  intros (_ & _ & _ & E1 & E2 & E3 & E4 & E5 & E6 & E7 & E8 & E9 & E10 & E11 & _).
  apply Bool.eqb_prop in E1, E2, E3, E4, E5, E6.
  rewrite E1, E2, E3, E4, E5, E6.
  rewrite (vec_eq_to_bool _ _ E7), (vec_eq_to_bool _ _ E8), (vec_eq_to_bool _ _ E9),
    (qvec3b_eq_emptyExact _ _ E10), (vec_eq_to_bool _ _ E11).
  reflexivity.
Qed.

(** X7: two values without NaN that the order does not tell apart agree
    on [needs_write]: merging equivalent keys never merges a value that
    needs the extended representation with one that does not. *)
Theorem equivalent_needs_write (a b : surfflags_t) :
  nan_free a -> nan_free b -> equivalent a b = true ->
  needs_write a = needs_write b.
Proof.
  intros Ha Hb. rewrite (equivalent_all_fields_equal a b Ha Hb).
  apply all_fields_equal_needs_write.
Qed.

(** With a NaN the equivalence does merge such values. *)
Example equivalent_nan_needs_write :
  equivalent nan_angle surfflags_default = true /\
  needs_write nan_angle = true /\ needs_write surfflags_default = false.
Proof. repeat split. Qed.

Lemma operator_lt_asymmetric_witness :
  operator_lt surfflags_default sample_phong = true /\
  operator_lt sample_phong surfflags_default = false.
Proof.
  split; [reflexivity|].
  exact (proj1 (operator_lt_asymmetric surfflags_default sample_phong) eq_refl).
Defined.

Lemma operator_lt_strict_weak_ordering_witness :
  operator_lt surfflags_default (with_native 2 surfflags_default) = true /\
  operator_lt (with_native 2 surfflags_default) sample_phong = true /\
  operator_lt surfflags_default sample_phong = true.
Proof.
  split; [reflexivity|]. split; [reflexivity|].
  refine (proj1 (operator_lt_strict_weak_ordering surfflags_default
                   (with_native 2 surfflags_default) sample_phong _ _ _)
            eq_refl eq_refl);
    repeat split.
Defined.

Lemma equivalent_needs_write_witness :
  equivalent (with_phong_angle vec_neg_zero surfflags_default) surfflags_default = true /\
  needs_write (with_phong_angle vec_neg_zero surfflags_default) =
  needs_write surfflags_default.
Proof.
  split; [reflexivity|].
  refine (equivalent_needs_write (with_phong_angle vec_neg_zero surfflags_default)
            surfflags_default _ _ eq_refl);
    repeat split.
Defined.

End OrderingFacts.

(** ** Texture vectors on a stream *)

Module TexvecFacts.
Import Texvec.

Section Texvec.
Context {T : Type}.

Lemma eight_values (m : list T) :
  length m = 8%nat ->
  exists a0 a1 a2 a3 a4 a5 a6 a7 : T, m = [a0; a1; a2; a3; a4; a5; a6; a7].
Proof.
  intros Hlen.
  do 8 (destruct m as [|? m]; [discriminate Hlen|]).
  destruct m; [|discriminate Hlen]. eauto 10.
Qed.

(** X8: what [stream_write] wrote, [stream_read] reads back: reading
    into any texture vector from a stream that starts with the values
    written for [m] yields [m] and leaves the rest of the stream. *)
Theorem stream_read_write (m m' rest : list T) :
  length m = 8%nat -> length m' = 8%nat ->
  stream_read m' (stream_write m [] ++ rest) = (m, rest).
Proof.
  intros Hm Hm'.
  destruct (eight_values m Hm) as (a0 & a1 & a2 & a3 & a4 & a5 & a6 & a7 & ->).
  destruct (eight_values m' Hm') as (b0 & b1 & b2 & b3 & b4 & b5 & b6 & b7 & ->).
  reflexivity.
Qed.

(** X9: the stream holds the first row and then the second, while the
    matrix stores its values column after column; the values written are
    in the order of the storage only for a matrix whose values at
    positions 1, 2 and 4 coincide and whose values at 3, 5 and 6
    coincide. *)
Theorem stream_write_row_major (a0 a1 a2 a3 a4 a5 a6 a7 : T) (stream : list T) :
  stream_write [a0; a1; a2; a3; a4; a5; a6; a7] stream =
    stream ++ [a0; a2; a4; a6; a1; a3; a5; a7] /\
  (stream_write [a0; a1; a2; a3; a4; a5; a6; a7] [] =
     [a0; a1; a2; a3; a4; a5; a6; a7] <->
   a1 = a2 /\ a2 = a4 /\ a3 = a5 /\ a5 = a6).
Proof.
  assert (Hw : forall s, stream_write [a0; a1; a2; a3; a4; a5; a6; a7] s =
                         s ++ [a0; a2; a4; a6; a1; a3; a5; a7]).
  { intros s. unfold stream_write, cells. cbn. rewrite <- !(assoc_L (++)). reflexivity. }
  split; [apply Hw|].
  rewrite Hw. cbn [app]. split.
  - intros H. injection H. intros. repeat split; congruence.
  - intros (-> & -> & -> & ->). reflexivity.
Qed.

End Texvec.

Lemma stream_read_write_witness :
  stream_read [0; 0; 0; 0; 0; 0; 0; 0]%Z (stream_write sample_texvec [] ++ [9]%Z) =
  (sample_texvec, [9]%Z).
Proof.
  apply (stream_read_write sample_texvec [0; 0; 0; 0; 0; 0; 0; 0]%Z [9]%Z);
    reflexivity.
Defined.

End TexvecFacts.

(** ** Identifier and version in the display form *)

Module DisplayFacts.
Import Bspversion BspversionFacts.

Local Open Scope Z_scope.

Lemma land_255 (x : Z) : Z.land x 255 = x mod 256.
Proof. change 255 with (Z.ones 8). rewrite Z.land_ones by lia. reflexivity. Qed.

(** X10: the identifier letters are the four bytes of the identifier's
    32-bit two's-complement representation, low byte first, also for a
    negative identifier. *)
Theorem ident_bytes_little_endian (i : Z) :
  Forall (fun b => 0 <= b < 256) (ident_bytes i) /\
  exists b0 b1 b2 b3 : Z,
    ident_bytes i = [b0; b1; b2; b3] /\
    b0 + 256 * b1 + 65536 * b2 + 16777216 * b3 = i mod 4294967296.
Proof.
  unfold ident_bytes. rewrite !land_255, !Z.shiftr_div_pow2 by lia.
  change (2 ^ 8) with 256. change (2 ^ 16) with 65536.
  change (2 ^ 24) with 16777216.
  split.
  - repeat constructor; apply Z.mod_pos_bound; lia.
  - eexists _, _, _, _. split; [reflexivity|].
    Z.to_euclidean_division_equations. lia.
Qed.

Lemma append_cancel_l (p a b : string) :
  String.append p a = String.append p b -> a = b.
Proof.
  induction p as [|c p IH]; cbn [String.append]; [trivial|].
  intros [= H]. apply IH. exact H.
Qed.

Lemma decimal_parses (z : Z) :
  NilZero.int_of_string (decimal z) = Some (Z.to_int z).
Proof.
  unfold decimal. apply NilZero.isi.
  - destruct z; cbn; try discriminate.
    intros [= H]. apply (DecimalPos.Unsigned.to_uint_nonnil _ H).
  - destruct z; cbn; try discriminate.
    intros [= H]. apply (DecimalPos.Unsigned.to_uint_nonnil _ H).
Qed.

Lemma decimal_inj (a b : Z) : decimal a = decimal b -> a = b.
Proof.
  intros H. apply DecimalZ.to_int_inj.
  pose proof (decimal_parses a) as Ha. rewrite H, decimal_parses in Ha.
  congruence.
Qed.

(** X11: the display form tells versions apart: two version-discriminated
    descriptors with the same display name and the same identifier are
    rendered alike only when their versions are the same. *)
Theorem format_distinguishes_versions (v w : bspversion_t) (a b : Z) :
  version v = Some a -> version w = Some b ->
  name v = name w -> ident v = ident w ->
  format v = format w -> a = b.
Proof.
  intros Hv Hw Hname Hid. unfold format.
  rewrite Hv, Hw, Hname, Hid. intros H.
  apply (f_equal (fun o => match o with Some x => x | None => EmptyString end)) in H.
  cbv beta iota in H.
  apply append_cancel_l in H. apply append_cancel_l in H.
  apply (append_cancel_l ":") in H. apply decimal_inj. exact H.
Qed.

Lemma format_distinguishes_versions_witness :
  format sample_q2 = format Samples.sample_q2_alias /\ 38 = 38.
Proof.
  split; [reflexivity|].
  apply (format_distinguishes_versions sample_q2 Samples.sample_q2_alias 38 38);
    reflexivity.
Defined.

End DisplayFacts.

(** ** Ownership of the extension buffers *)

Module OwnershipFacts.
Import Bspversion Bspdata Ownership.

Lemma foldr_max_ge (l : list N) (k : N) :
  k ∈ l -> (k <= foldr N.max 0 l)%N.
Proof.
  induction l as [|x l IH]; intros Hin.
  - apply elem_of_nil in Hin. destruct Hin.
  - cbn [foldr]. apply elem_of_cons in Hin. destruct Hin as [->|Hin].
    + apply N.le_max_l.
    + etransitivity; [apply IH; exact Hin | apply N.le_max_r].
Qed.

(** Every live address and every first address of a live block is
    below the address of a new block. *)
Lemma fresh_address_above (m : memory) (a : N) :
  a ∈ dom (cells m) ∪ bases m -> (a < fresh_address m)%N.
Proof.
  intros Hin. unfold fresh_address.
  apply elem_of_elements in Hin. apply foldr_max_ge in Hin. lia.
Qed.

Lemma fresh_address_free (m : memory) (a : N) :
  (fresh_address m <= a)%N -> cells m !! a = None.
Proof.
  intros Hle. apply not_elem_of_dom. intros Hin.
  assert (a < fresh_address m)%N
    by (apply fresh_address_above, elem_of_union; left; exact Hin).
  lia.
Qed.

Lemma read_bytes_length (c : gmap N Byte.byte) (p : N) (n : nat)
    (data : list Byte.byte) :
  read_bytes c p n = Some data -> length data = n.
Proof.
  revert p data. induction n as [|n IH]; intros p data; cbn [read_bytes].
  - intros [= <-]. reflexivity.
  - destruct (c !! p) as [v|]; [|discriminate].
    destruct (read_bytes c (N.succ p) n) as [r|] eqn:Hr; [|discriminate].
    intros [= <-]. cbn [length]. f_equal. apply (IH _ _ Hr).
Qed.

(** A byte written below the range read does not change what is read. *)
Lemma read_bytes_insert_below (c : gmap N Byte.byte) (p q : N) (v : Byte.byte)
    (n : nat) :
  (p < q)%N -> read_bytes (<[p := v]> c) q n = read_bytes c q n.
Proof.
  revert q. induction n as [|n IH]; intros q Hlt; cbn [read_bytes]; [reflexivity|].
  rewrite lookup_insert_ne by lia. rewrite IH by lia. reflexivity.
Qed.

(** What [memcpy] wrote can be read back. *)
Lemma read_write_bytes (c : gmap N Byte.byte) (p : N) (data : list Byte.byte) :
  read_bytes (write_bytes p data c) p (length data) = Some data.
Proof.
  revert p. induction data as [|v r IH]; intros p; [reflexivity|].
  cbn [write_bytes length read_bytes].
  rewrite lookup_insert_eq, read_bytes_insert_below by lia.
  rewrite IH. reflexivity.
Qed.

(** X12: a second [transfer] under a name replaces the entry of the
    first, and transfers under different names can be made in either
    order. *)
Theorem transfer_composes (b : bspx_t) (name1 name2 : string)
    (p1 p2 : ptr) (s1 s2 : N) :
  fst (transfer name1 p2 s2 (fst (transfer name1 p1 s1 b))) =
    fst (transfer name1 p2 s2 b) /\
  (name1 <> name2 ->
   fst (transfer name2 p2 s2 (fst (transfer name1 p1 s1 b))) =
   fst (transfer name1 p1 s1 (fst (transfer name2 p2 s2 b)))).
Proof.
  unfold transfer. cbn [fst entries]. split.
  - rewrite insert_insert_eq. reflexivity.
  - intros Hne. f_equal. apply insert_insert_ne. congruence.
Qed.


Lemma transfer_composes_witness :
  fst (transfer "VERTEXNORMALS" 4096%N 1%N (fst (transfer "LMSHIFT" 20480%N 2%N sample_bspx))) =
  fst (transfer "LMSHIFT" 20480%N 2%N (fst (transfer "VERTEXNORMALS" 4096%N 1%N sample_bspx))).
Proof.
  symmetry.
  apply (transfer_composes sample_bspx "VERTEXNORMALS" "LMSHIFT" 4096%N 20480%N 1%N 2%N).
  discriminate.
Defined.

Example read_inside_block :
  read_bytes (cells sample_memory) 8193%N 2 = Some [Byte.x02; Byte.x03].
Proof. vm_compute. reflexivity. Qed.


End OwnershipFacts.

(** ** Chained setters *)

Module ChainsFacts.
Import Contentflags ContentflagsFacts Chains.

Section WithGameData.
Context {any : Type}.

(** X14: the two setters can be chained in either order, and of two
    calls of one setter the last decides: [c.set_mirrored(a)
    .set_clips_same_type(b)] and [c.set_clips_same_type(b)
    .set_mirrored(a)] leave the same object and return the same
    reference, and [c.set_mirrored(a).set_mirrored(b)] is
    [c.set_mirrored(b)], likewise for [set_clips_same_type]. *)
Theorem setters_chain (this : loc) (a b : option bool)
    (h : gmap loc (contentflags_t any)) :
  set_clips_then_mirrored this a b h = set_mirrored_then_clips this a b h /\
  set_mirrored_twice this a b h = set_mirrored this b h /\
  set_clips_twice this a b h = set_clips_same_type this b h.
Proof.
  unfold set_clips_then_mirrored, set_mirrored_then_clips, set_mirrored_twice,
    set_clips_twice, set_mirrored, set_clips_same_type.
  destruct (h !! this) as [c|] eqn:Hc; [|repeat split].
  rewrite !lookup_insert_eq, !insert_insert_eq. repeat split.
Qed.

End WithGameData.

End ChainsFacts.
